(** * commander: a command tree dispatcher

    A shallow embedding of [github.com/pborman/commander] (commander.go and
    split.go) together with the properties of its documented behaviour.

    Go values are represented as follows.
    - [string] is a Go string (a byte sequence), [list string] a [[]string].
    - [int] is [Z]; the code only compares and prints the integers it is
      given, so no wrap-around arises.
    - A [*Command] is an address into a heap of [Command] structs, a nil
      pointer is [None].
    - Values of interface type ([any], [error], [io.Writer], function
      values) are [option]s of a small description of the value. *)

From stdpp Require Import gmap strings list pretty sorting.

Local Open Scope Z_scope.

(** ** Pieces of the Go standard library used by the package *)

(** [strings.HasPrefix] *)
Definition strings_HasPrefix (s pre : string) : bool := String.prefix pre s.

(** [strings.TrimPrefix]: [s] without the leading [pre], or [s] itself. *)
Definition strings_TrimPrefix (s pre : string) : string :=
  if strings_HasPrefix s pre
  then String.substring (String.length pre) (String.length s - String.length pre) s
  else s.

(** [strings.HasSuffix] *)
Definition strings_HasSuffix (s suf : string) : bool :=
  String.prefix (String.rev suf) (String.rev s).

(** [strings.TrimSuffix] *)
Definition strings_TrimSuffix (s suf : string) : string :=
  if strings_HasSuffix s suf
  then String.substring 0 (String.length s - String.length suf) s
  else s.

(** The scan of [strings.Split] for a non-empty separator: cut at each
    occurrence of [sep], left to right, occurrences not overlapping.  [skip]
    counts the bytes of a separator still to be passed over and [cur] holds
    the current piece, last byte first. *)
Fixpoint split_scan (sep : string) (skip : nat) (cur s : string) : list string :=
  match s with
  | EmptyString => [String.rev cur]
  | String a s' =>
      match skip with
      | S k => split_scan sep k cur s'
      | O =>
          if String.prefix sep s
          then String.rev cur :: split_scan sep (String.length sep - 1) EmptyString s'
          else split_scan sep O (String a cur) s'
      end
  end.

(** [strings.Split].  With an empty separator Go explodes the string into
    its UTF-8 sequences; that decoding is the parameter [explode]. *)
Definition strings_Split (explode : string → list string) (s sep : string) : list string :=
  if String.eqb sep "" then explode s else split_scan sep O EmptyString s.

(** [strings.Join] *)
Fixpoint strings_Join (elems : list string) (sep : string) : string :=
  match elems with
  | [] => ""
  | [e] => e
  | e :: rest => e +:+ sep +:+ strings_Join rest sep
  end.

(** [sort.Strings]: the ascending byte-wise order.  The sorted arrangement of
    a list of strings is unique, so an insertion sort gives the result of
    Go's algorithm. *)
Fixpoint insert_sorted (s : string) (l : list string) : list string :=
  match l with
  | [] => [s]
  | x :: rest => if String.leb s x then s :: l else x :: insert_sorted s rest
  end.

Definition sort_Strings (l : list string) : list string :=
  foldr insert_sorted [] l.

(** The verb [%d] of package fmt. *)
Definition fmt_d (n : Z) : string := pretty n.

(** ** split.go *)

Definition StrictDelim : Z := 0.
Definition TrailingDelim : Z := Z.shiftl 1 1.
Definition PreceedingDelim : Z := Z.shiftl 1 2.
Definition AnyDelim : Z := Z.shiftl 1 3.

(** [args[lo:hi]] for [lo <= hi <= len(args)] *)
Definition slice {A} (l : list A) (lo hi : nat) : list A :=
  take (hi - lo) (drop lo l).

(** The body of the first loop of [SplitCommand]: the words appended for one
    argument. *)
Definition split_words (explode : string → list string)
    (delim : string) (options : Z) (arg : string) : list string :=
  if String.eqb arg delim then [arg]
  else if negb (Z.land options AnyDelim =? 0) then
    flat_map (λ part, if (0 <? String.length part)%nat then [part; delim] else [delim])
             (strings_Split explode arg delim)
  else
    let '(words, arg) :=
      if negb (Z.land options PreceedingDelim =? 0) && strings_HasPrefix arg delim
      then ([delim], strings_TrimPrefix arg delim)
      else ([], arg) in
    if negb (Z.land options TrailingDelim =? 0) && strings_HasSuffix arg delim
    then words ++ [strings_TrimSuffix arg delim; delim]
    else words ++ [arg].

(** The second loop of [SplitCommand], at index [i] with [rest = args[i:]];
    it returns the final values of [start] and [cmds]. *)
Fixpoint split_groups (delim : string) (args rest : list string)
    (i start : nat) (cmds : list (list string)) : nat * list (list string) :=
  match rest with
  | [] => (start, cmds)
  | arg :: rest' =>
      if String.eqb arg delim
      then split_groups delim args rest' (S i) (S i)
             (if (start <? i)%nat then cmds ++ [slice args start i] else cmds)
      else split_groups delim args rest' (S i) start cmds
  end.

Definition SplitCommand (explode : string → list string)
    (args : list string) (delim : string) (options : Z) : list (list string) :=
  let args :=
    if negb (options =? StrictDelim)
    then flat_map (split_words explode delim options) args
    else args in
  let '(start, cmds) := split_groups delim args args 0 0 [] in
  if (start <? length args)%nat then cmds ++ [drop start args] else cmds.

(** The order [sort.Strings] sorts by. *)
Definition string_le (a b : string) : Prop := String.leb a b = true.

(** The description of the Strict policy: the sequence is cut at every
    element equal to the delimiter, and the empty pieces are dropped. *)
Fixpoint cut_at (delim : string) (args : list string) : list (list string) :=
  match args with
  | [] => [[]]
  | a :: rest =>
      if String.eqb a delim then [] :: cut_at delim rest
      else match cut_at delim rest with
           | g :: gs => (a :: g) :: gs
           | [] => [[a]]
           end
  end.

Definition nonempty_groups (gs : list (list string)) : list (list string) :=
  filter (λ g, g ≠ []) gs.

(** The pieces of a cut, put back together with the delimiter between them. *)
Fixpoint rejoin (delim : string) (gs : list (list string)) : list string :=
  match gs with
  | [] => []
  | [g] => g
  | g :: gs' => g ++ delim :: rejoin delim gs'
  end.


(** ** commander.go: data *)

(** If MaxArgs is set to NoArgs then the command takes no arguments. *)
Definition NoArgs : Z := -1.

(** The line feed written as [\n] in the Go source. *)
Definition nl : string := String (Ascii.ascii_of_nat 10) EmptyString.

(** An [io.Writer] the package writes to. *)
Inductive Writer : Type :=
| W_stderr                                (* the package variable [stderr] *)
| W_user (n : nat)                        (* a writer supplied by the caller *)
| W_buf                                   (* the [bytes.Buffer] local to [parse] *)
| W_indent (prefix : string) (w : Writer) (* [indent.NewWriter(w, prefix)] *).

(** A value of the field [Func]. *)
Inductive FuncVal : Type :=
| F_Help
| F_user (f : nat).

(** A value of the field [OnError]. *)
Inductive Policy : Type :=
| P_ExitOnError
| P_ContinueOnError
| P_user (p : nat).

(** A non-nil [error]: a [*UsageError] with its fields [C] and [Err], or an
    error that only carries its text ([errors.New], [fmt.Errorf], the errors
    of the flag package and of actions). *)
#[warnings="-register-all"]
Inductive error : Type :=
| UsageError (C : nat) (Err : option error)
| errorString (s : string).

Module Command.

(** [type Command struct].  [parent], [Defaults] and [Flags] hold addresses,
    [SubCommands] is [None] for the nil slice. *)
Record t : Type := mk {
  parent : option nat;
  Name : string;
  Help : string;
  Description : string;
  Parameters : string;
  MinArgs : Z;
  MaxArgs : Z;
  Defaults : option nat;
  Flags : option nat;
  Func : option FuncVal;
  SubCommands : option (list nat);
  Stderr : option Writer;
  OnError : option Policy;
}.

Definition set_parent (p : option nat) (c : t) : t :=
  mk p (Name c) (Help c) (Description c) (Parameters c) (MinArgs c) (MaxArgs c)
     (Defaults c) (Flags c) (Func c) (SubCommands c) (Stderr c) (OnError c).

Definition set_Flags (f : option nat) (c : t) : t :=
  mk (parent c) (Name c) (Help c) (Description c) (Parameters c) (MinArgs c) (MaxArgs c)
     (Defaults c) f (Func c) (SubCommands c) (Stderr c) (OnError c).

Definition set_Stderr (w : option Writer) (c : t) : t :=
  mk (parent c) (Name c) (Help c) (Description c) (Parameters c) (MinArgs c) (MaxArgs c)
     (Defaults c) (Flags c) (Func c) (SubCommands c) w (OnError c).

Definition set_SubCommands (l : option (list nat)) (c : t) : t :=
  mk (parent c) (Name c) (Help c) (Description c) (Parameters c) (MinArgs c) (MaxArgs c)
     (Defaults c) (Flags c) (Func c) l (Stderr c) (OnError c).

(** The elements a [range] over [SubCommands] visits. *)
Definition children (c : t) : list nat := default [] (SubCommands c).

End Command.

(** [(c *Command) parameters()].  [None] is the run-time panic of the slice
    expression [b.String()[1:]] on an empty string. *)
Definition parameters (c : Command.t) : option string :=
  if negb (String.eqb (Command.Parameters c) "") then Some (Command.Parameters c)
  else if Command.MaxArgs c =? NoArgs then Some ""
  else
    let b := foldl (λ b i, b +:+ " arg" +:+ fmt_d (Z.of_nat i)) ""
                   (seq 0 (Z.to_nat (Command.MinArgs c))) in
    let b := if (Command.MaxArgs c =? 0) || (Command.MaxArgs c <? Command.MinArgs c)
             then b +:+ " ..." else b in
    match b with
    | EmptyString => None
    | String _ rest => Some rest
    end.

(** [(c *Command) getFlags()] *)
Definition getFlags (c : Command.t) : option nat :=
  match Command.Flags c with
  | Some l => Some l
  | None => Command.Defaults c
  end.

(** ** The collaborators *)

(** What a parse by the flag package leaves behind: the fields of the
    options struct, the text written to the output of the flag set, and
    either the text of the error of [set.Parse] or the result of
    [set.Args()]. *)
Record ParseOutcome (Options : Type) : Type := mkParseOutcome {
  po_opts : Options;
  po_output : string;
  po_result : string + list string;
}.
Arguments mkParseOutcome {Options}.
Arguments po_opts {Options}.
Arguments po_output {Options}.
Arguments po_result {Options}.

(** Package [github.com/pborman/flags], as far as commander calls it.
    - [Options] is the content of an options struct, [Value] what a field
      holds.
    - [flags_Parse setname name o args] registers a struct of content [o]
      under [name] in a flag set and parses [args] into it; [setname] is the
      name given to [flags.NewFlagSet], or [None] for the set that
      [flags.RegisterNew] creates.
    - The other three take the options as the interface value they receive:
      [None] where it is nil. *)
Class FlagsPkg : Type := {
  Options : Type;
  Value : Type;
  flags_Parse : option string → string → Options → list string → ParseOutcome Options;
  flags_Lookup : option Options → string → option Value;
  flags_UsageLine : string → string → option Options → string;
  flags_Help : string → string → option Options → string;
}.

(** [strings.TrimSpace] and [indent.String] of [github.com/pborman/indent]. *)
Class TextPkg : Type := {
  strings_TrimSpace : string → string;
  indent_String : string → string → string;
}.

(** ** The heap and the effects of a call *)

(** The memory a run works on: the [Command] structs, the options structs
    that [Defaults] and [Flags] point to, and what has been written so far,
    oldest first. *)
Record State `{FlagsPkg} : Type := mkState {
  cmds : gmap nat Command.t;
  opts : gmap nat Options;
  out : list (Writer * string);
}.
Arguments mkState {_}.

(** How a call ends: it returns, it panics, the process exits ([os.Exit]),
    or there is no result: a walk along a cyclic parent chain (which does not
    terminate), an address that is not allocated, or recursion beyond the
    given depth. *)
Inductive Outcome `{FlagsPkg} (A : Type) : Type :=
| Ret (a : A) (s : State)
| Panic (msg : string) (s : State)
| Exited (code : Z) (s : State)
| NoResult.
Arguments Ret {_ A}.
Arguments Panic {_ A}.
Arguments Exited {_ A}.
Arguments NoResult {_ A}.

(** The actions and error policies written by the user of the package, and
    the types of the values only passed through: [context.Context] and the
    elements of [extra ...any].  An action or a policy is given by what it
    does to the state and how it ends; [user_Func f] is the action numbered
    [f], called with the context, the command, the arguments and the extra
    values. *)
Class UserCode `{FlagsPkg} : Type := {
  Ctx : Type;
  Any : Type;
  user_Func : nat → Ctx → nat → list string → list Any → State → Outcome (option error);
  user_OnError : nat → nat → list string → list Any → error → State → Outcome (option error);
}.

(** Computations on the heap. *)
Definition M `{FlagsPkg} (A : Type) : Type := State → Outcome A.

Definition ret `{FlagsPkg} {A} (a : A) : M A := λ s, Ret a s.

Definition bind `{FlagsPkg} {A B} (m : M A) (k : A → M B) : M B := λ s,
  match m s with
  | Ret a s' => k a s'
  | Panic msg s' => Panic msg s'
  | Exited code s' => Exited code s'
  | NoResult => NoResult
  end.

Notation "'let*' x ':=' m 'in' k" := (bind m (λ x, k))
  (at level 10, x pattern, m at level 100, k at level 200).
Notation "m ';;' k" := (bind m (λ _, k))
  (at level 100, k at level 200, right associativity).

Section Commander.
Context `{FP : FlagsPkg} `{TP : TextPkg} `{UC : !UserCode}.

(** A pure read of the state that may have no result. *)
Definition read {A} (f : State → option A) : M A := λ s,
  match f s with
  | Some a => Ret a s
  | None => NoResult
  end.

Definition panic {A} (msg : string) : M A := λ s, Panic msg s.

(** [defer]: [d] runs when [body] returns and when it panics; a panic of
    [body] goes on after [d]. *)
Definition defer {A} (body : M A) (d : M unit) : M A := λ s,
  match body s with
  | Ret a s' => (d ;; ret a) s'
  | Panic msg s' => (d ;; panic msg) s'
  | other => other
  end.

Definition getCmd (c : nat) : M Command.t := read (λ s, cmds s !! c).

Definition updCmd (c : nat) (f : Command.t → Command.t) : M unit := λ s,
  match cmds s !! c with
  | Some C => Ret tt (mkState (<[c := f C]> (cmds s)) (opts s) (out s))
  | None => NoResult
  end.

Definition getOpts (l : nat) : M Options := read (λ s, opts s !! l).

Definition setOpts (l : nat) (o : Options) : M unit := λ s,
  Ret tt (mkState (cmds s) (<[l := o]> (opts s)) (out s)).

(** A new options struct with content [o]. *)
Definition newOpts (o : Options) : M nat := λ s,
  let l := fresh (dom (opts s)) in
  Ret l (mkState (cmds s) (<[l := o]> (opts s)) (out s)).

(** One write of [text] to [w]. *)
Definition write (w : Writer) (text : string) : M unit := λ s,
  Ret tt (mkState (cmds s) (opts s) (out s ++ [(w, text)])).

(** The options struct an interface value points to, [None] for nil. *)
Definition load (s : State) (p : option nat) : option Options :=
  p ≫= λ l, opts s !! l.

(** ** Walks along the parent chain *)

(** A chain without a cycle visits at most as many structs as the heap
    holds; this many steps are given to every walk. *)
Definition walk_bound (s : State) : nat := S (size (cmds s)).

(** [(c *Command) Command()] *)
Fixpoint Command_path_n (n : nat) (s : State) (c : nat) : option string :=
  match n with
  | O => None
  | S n' =>
      C ← cmds s !! c;
      match Command.parent C with
      | Some p => pre ← Command_path_n n' s p; Some (pre +:+ " " +:+ Command.Name C)
      | None => Some (Command.Name C)
      end
  end.

Definition Command_path (s : State) (c : nat) : option string :=
  Command_path_n (walk_bound s) s c.

(** [(c *Command) stderr()] *)
Fixpoint stderr_n (n : nat) (s : State) (c : option nat) : option Writer :=
  match c with
  | None => Some W_stderr
  | Some c =>
      match n with
      | O => None
      | S n' =>
          C ← cmds s !! c;
          match Command.Stderr C with
          | Some w => Some w
          | None => stderr_n n' s (Command.parent C)
          end
      end
  end.

Definition stderr (s : State) (c : nat) : option Writer :=
  stderr_n (walk_bound s) s (Some c).

(** The loop of [(c *Command) onError(err)] *)
Fixpoint onError_n (n : nat) (s : State) (c : option nat) : option (option Policy) :=
  match c with
  | None => Some None
  | Some c =>
      match n with
      | O => None
      | S n' =>
          C ← cmds s !! c;
          match Command.OnError C with
          | Some p => Some (Some p)
          | None => onError_n n' s (Command.parent C)
          end
      end
  end.

(** [(c *Command) onError(err)] *)
Definition onError (s : State) (c : nat) (err : option error) : option (option Policy) :=
  match err with
  | None => Some None
  | Some _ => onError_n (walk_bound s) s (Some c)
  end.

(** [(c *Command) Lookup(cmd, name)] *)
Fixpoint Lookup_n (n : nat) (s : State) (c : option nat) (cmd name : string)
    : option (option Value) :=
  match c with
  | None => Some None
  | Some c =>
      match n with
      | O => None
      | S n' =>
          C ← cmds s !! c;
          match (if String.eqb cmd "" || String.eqb cmd (Command.Name C)
                 then flags_Lookup (load s (Command.Flags C)) name
                 else None) with
          | Some i => Some (Some i)
          | None => Lookup_n n' s (Command.parent C) cmd name
          end
      end
  end.

Definition Lookup (s : State) (c : option nat) (cmd name : string) : option (option Value) :=
  Lookup_n (walk_bound s) s c cmd name.

(** [(u *UsageError) Error()], and the text of the other errors. *)
Fixpoint Error (s : State) (e : error) : option string :=
  match e with
  | errorString text => Some text
  | UsageError c (Some err) =>
      path ← Command_path s c; text ← Error s err; Some (path +:+ ": " +:+ text)
  | UsageError c None =>
      path ← Command_path s c; Some (path +:+ ": incorrect usage")
  end.

(** [(c *Command) printf(format, v...)], given the formatted text. *)
Definition printf (c : nat) (text : string) : M unit :=
  let* w := read (λ s, stderr s c) in write w text.

(** The names of the structs at [cs]. *)
Definition names_of (s : State) (cs : list nat) : option (list string) :=
  mapM (λ sc, Command.Name <$> cmds s !! sc) cs.

(** [(c *Command) subCommands()] *)
Definition subCommands (s : State) (c : nat) : option (list string) :=
  C ← cmds s !! c;
  names ← names_of s (Command.children C);
  Some (sort_Strings names).

(** The loop of [findSub] and of [runsub]: the first of [cs] named [name]. *)
Fixpoint find_named (s : State) (cs : list nat) (name : string) : option (option nat) :=
  match cs with
  | [] => Some None
  | sc :: rest =>
      C ← cmds s !! sc;
      if String.eqb (Command.Name C) name then Some (Some sc)
      else find_named s rest name
  end.

(** [(c *Command) findSub(name)] *)
Definition findSub (s : State) (c : nat) (name : string) : option (option nat) :=
  C ← cmds s !! c; find_named s (Command.children C) name.

(** [(c *Command) description()] *)
Definition description (c : Command.t) : string :=
  strings_TrimSpace (Command.Description c).

(** ** parse *)

(** The checks at the end of [parse] on the arguments left after the flags. *)
Definition check_args (c : nat) (C : Command.t) (args : list string)
    : list string * option error :=
  if (Command.MaxArgs C =? NoArgs) && negb (length args =? 0)%nat then
    (args, Some (UsageError c (Some (errorString "takes no arguments"))))
  else if Z.of_nat (length args) <? Command.MinArgs C then
    (args, Some (UsageError c (Some (errorString
       ("requires at least " +:+ fmt_d (Command.MinArgs C) +:+ " arguments")))))
  else if (0 <? Command.MaxArgs C) && (Command.MaxArgs C <? Z.of_nat (length args)) then
    (args, Some (UsageError c (Some (errorString
       ("takes no more than " +:+ fmt_d (Command.MaxArgs C) +:+ " arguments")))))
  else (args, None).

(** The first lines of [parse]: the flag set, if there is one.  The result
    is the name given to [flags.NewFlagSet] (if it is called), the name the
    options are registered under, and the address of the options the set
    parses into. *)
Definition parse_set (c : nat) : M (option (option string * string * nat)) :=
  let* C := getCmd c in
  match Command.Defaults C with
  | Some d =>
      let* name := read (λ s, Command_path s c) in
      let* o := getOpts d in
      let* l := newOpts o in
      updCmd c (Command.set_Flags (Some l)) ;;
      ret (Some (None, name, l))
  | None =>
      match Command.Flags C with
      | Some l =>
          let* name := read (λ s, Command_path s c) in
          ret (Some (Some (Command.Name C), name, l))
      | None => ret None
      end
  end.

(** A call of [parameters()] inside a larger expression. *)
Definition call_parameters (C : Command.t) : M string :=
  match parameters C with
  | Some p => ret p
  | None => panic "slice bounds out of range"
  end.

(** The block [if set != nil { ... }] of [parse]: the error return inside
    it, or the arguments to go on with. *)
Definition parse_flags (c : nat) (set : option (option string * string * nat))
    (args : list string) : M (list string * option error + list string) :=
  match set with
  | Some (setname, name, l) =>
      let* w := read (λ s, stderr s c) in
      let* o := getOpts l in
      let po := flags_Parse setname name o args in
      setOpts l (po_opts po) ;;
      write w (po_output po) ;;
      match po_result po with
      | inl text =>
          let* C := getCmd c in
          let* params := call_parameters C in
          let* fl := read (λ s, Some (load s (Command.Flags C))) in
          write w (flags_Help (Command.Name C) params fl) ;;
          ret (inl (args, Some (UsageError c (Some (errorString text)))))
      | inr rest => ret (inr rest)
      end
  | None => ret (inr args)
  end.

(** [(c *Command) parse(args)] *)
Definition parse (c : nat) (args : list string) : M (list string * option error) :=
  let* set := parse_set c in
  let* C := getCmd c in
  let oStderr := Command.Stderr C in
  defer
    (updCmd c (Command.set_Stderr (Some W_buf)) ;;
     let* r := parse_flags c set args in
     match r with
     | inl early => ret early
     | inr args => let* C := getCmd c in ret (check_args c C args)
     end)
    (updCmd c (Command.set_Stderr oStderr)).

(** ** Help *)

Fixpoint for_each {A} (l : list A) (body : A → M unit) : M unit :=
  match l with
  | [] => ret tt
  | x :: rest => body x ;; for_each rest body
  end.

(** The options [getFlags()] points to, as the flag package receives them. *)
Definition shown_flags (C : Command.t) : M (option Options) :=
  read (λ s, Some (load s (getFlags C))).

(** The loop of [Help] over its arguments, from the struct at [c] on. *)
Fixpoint Help_descend (c : nat) (command : string) (args : list string) : M (nat + error) :=
  match args with
  | [] => ret (inl c)
  | name :: rest =>
      let* C := getCmd c in
      if (length (Command.children C) =? 0)%nat
      then ret (inr (errorString (command +:+ " has no subcommands")))
      else
        let* sub := read (λ s, findSub s c name) in
        match sub with
        | None => ret (inr (errorString (command +:+ " has no subcommand " +:+ name)))
        | Some sc => Help_descend sc (command +:+ " " +:+ name) rest
        end
  end.

(** The description block that both branches of [Help] print. *)
Definition Help_description (c : nat) (C : Command.t) : M unit :=
  let d := description C in
  if negb (String.eqb d "") then
    printf c (indent_String "    " d +:+ nl) ;;
    if bool_decide (getFlags C ≠ None) then printf c nl else ret tt
  else ret tt.

(** [sort.Slice(sc, func(i, j) { return sc[i].Name < sc[j].Name })] on
    structs paired with their names; equal names keep their order. *)
Fixpoint insert_by_name (x : nat * string) (l : list (nat * string)) : list (nat * string) :=
  match l with
  | [] => [x]
  | y :: rest => if String.ltb y.2 x.2 then y :: insert_by_name x rest else x :: l
  end.

Definition sort_by_name (s : State) (cs : list nat) : option (list nat) :=
  names ← names_of s cs;
  Some ((foldr insert_by_name [] (zip cs names)).*1).

(** The body of the loop of [Help] over the sub commands. *)
Definition Help_child (c sc : nat) : M unit :=
  let* SC := getCmd sc in
  let* params := call_parameters SC in
  let params := if String.eqb params "" && (0 <? length (Command.children SC))%nat
                then "subcommand [...]" else params in
  let* fl := shown_flags SC in
  printf c (nl +:+ indent_String "  " (flags_UsageLine (Command.Name SC) params fl) +:+ nl) ;;
  let d := description SC in
  if negb (String.eqb d "") then printf c (indent_String "    " d +:+ nl)
  else if negb (String.eqb (Command.Help SC) "")
       then printf c (indent_String "    " (Command.Help SC) +:+ nl)
       else ret tt.

(** [func Help(ctx, c, args, extra...)] *)
Definition Help (ctx : Ctx) (c : nat) (args : list string) (extra : list Any)
    : M (option error) :=
  let* w := read (λ s, stderr s c) in
  let* C := getCmd c in
  let c := match Command.parent C with Some p => p | None => c end in
  let* C := getCmd c in
  let* r := Help_descend c (Command.Name C) args in
  match r with
  | inr e => ret (Some e)
  | inl c =>
      let* C := getCmd c in
      if (length (Command.children C) =? 0)%nat then
        let* params := call_parameters C in
        let* fl := shown_flags C in
        printf c ("Usage: " +:+ flags_UsageLine (Command.Name C) params fl +:+ nl) ;;
        Help_description c C ;;
        write (W_indent "  " w) (flags_Help "" "" fl) ;;
        ret None
      else
        let* fl := shown_flags C in
        printf c ("Usage: " +:+ flags_UsageLine (Command.Name C) "subcommand [...]" fl +:+ nl) ;;
        Help_description c C ;;
        write (W_indent "  " w) (flags_Help "" "" fl) ;;
        let* sorted := read (λ s, sort_by_name s (Command.children C)) in
        updCmd c (Command.set_SubCommands (Some sorted)) ;;
        printf c (nl +:+ "Available sub commands:") ;;
        for_each sorted (Help_child c) ;;
        ret None
  end.

(** ** Error policies *)

(** [func ExitOnError]; [Exit] is [os.Exit]. *)
Definition ExitOnError (c : nat) (args : list string) (extra : list Any) (err : error)
    : M (option error) :=
  let* text := read (λ s, Error s err) in
  printf c (text +:+ nl) ;;
  λ s, Exited 1 s.

(** [func ContinueOnError] *)
Definition ContinueOnError (c : nat) (args : list string) (extra : list Any) (err : error)
    : M (option error) :=
  let* text := read (λ s, Error s err) in
  printf c (text +:+ nl) ;;
  ret None.

Definition call_OnError (p : Policy) (c : nat) (args : list string) (extra : list Any)
    (err : error) : M (option error) :=
  match p with
  | P_ExitOnError => ExitOnError c args extra err
  | P_ContinueOnError => ContinueOnError c args extra err
  | P_user u => user_OnError u c args extra err
  end.

Definition call_Func (f : FuncVal) (ctx : Ctx) (c : nat) (args : list string)
    (extra : list Any) : M (option error) :=
  match f with
  | F_Help => Help ctx c args extra
  | F_user u => user_Func u ctx c args extra
  end.

(** ** Run *)

(** The function deferred by [Run] and [RunSubcommands], for the values of
    [args] and [err] at the time it runs. *)
Definition run_deferred (c : nat) (args : list string) (extra : list Any)
    (err : option error) : M (option error) :=
  let* p := read (λ s, onError s c err) in
  match p, err with
  | Some p, Some e => call_OnError p c args extra e
  | _, _ => ret err
  end.

(** The statements of [Run] after a failed parse, up to [return err]. *)
Definition report_parse_error (ctx : Ctx) (c : nat) (err : error) : M unit :=
  let* text := read (λ s, Error s err) in
  printf c (text +:+ nl) ;;
  match err with
  | UsageError ueC _ => Help ctx ueC [] [] ;; ret tt
  | _ => ret tt
  end.

(** [body] followed by the deferred function [d], whose result is the
    result of the call; when [body] panics, [d] runs and the panic goes on. *)
Definition and_finally {A} (body : M unit) (d : M A) : M A := λ s,
  match body s with
  | Ret _ s' => d s'
  | Panic msg s' => (d ;; panic msg) s'
  | Exited code s' => Exited code s'
  | NoResult => NoResult
  end.

(** [(c *Command) runsub(ctx, args, extra...)], with [run] for the method
    [Run] it calls on the sub command. *)
Definition runsub_with (run : nat → list string → M (option error))
    (c : nat) (args : list string) : M (option error) :=
  match args with
  | [] =>
      let* names := read (λ s, subCommands s c) in
      ret (Some (UsageError c (Some (errorString
             ("sub command required {" +:+ strings_Join names ", " +:+ "}")))))
  | cmd :: args =>
      let* C := getCmd c in
      let* found := read (λ s, find_named s (Command.children C) cmd) in
      match found with
      | Some sc => updCmd sc (Command.set_parent (Some c)) ;; run sc args
      | None =>
          ret (Some (UsageError c (Some (errorString (cmd +:+ ": unknown command")))))
      end
  end.

(** The statements of [Run] after a successful parse: the choice between
    the sub commands, [Func] and doing nothing. *)
Definition dispatch_with (run : nat → list string → M (option error))
    (ctx : Ctx) (c : nat) (args : list string) (extra : list Any) : M (option error) :=
  let* C := getCmd c in
  if bool_decide (Command.SubCommands C ≠ None) && (0 <? length args)%nat
  then runsub_with run c args
  else match Command.Func C with
       | Some f => call_Func f ctx c args extra
       | None => ret None
       end.

(** [(c *Command) Run(ctx, args, extra...)] for calls nested at most [n]
    deep.  A panic after a successful parse finds [err] nil, so that the
    deferred function does nothing; when the statements after a failed parse
    panic, the deferred function runs with [err] set, and the panic goes
    on. *)
Fixpoint Run (n : nat) (ctx : Ctx) (c : nat) (args : list string) (extra : list Any)
    : M (option error) :=
  match n with
  | O => λ _, NoResult
  | S n' =>
      let* r := parse c args in
      let '(args, err) := r in
      match err with
      | Some e =>
          and_finally (report_parse_error ctx c e) (run_deferred c args extra (Some e))
      | None =>
          let* err := dispatch_with (λ sc args, Run n' ctx sc args extra) ctx c args extra in
          run_deferred c args extra err
      end
  end.

(** [(c *Command) runsub(ctx, args, extra...)]; the sub command runs at
    depth [n]. *)
Definition runsub (n : nat) (ctx : Ctx) (c : nat) (args : list string) (extra : list Any)
    : M (option error) :=
  runsub_with (λ sc args, Run n ctx sc args extra) c args.

(** The statements of [Run] after a successful parse, the sub command
    running at depth [n]. *)
Definition dispatch (n : nat) (ctx : Ctx) (c : nat) (args : list string) (extra : list Any)
    : M (option error) :=
  dispatch_with (λ sc args, Run n ctx sc args extra) ctx c args extra.

(** [(c *Command) RunSubcommands(ctx, args, extra...)] *)
Definition RunSubcommands (n : nat) (ctx : Ctx) (c : nat) (args : list string)
    (extra : list Any) : M (option error) :=
  match n with
  | O => λ _, NoResult
  | S n' =>
      let* r := parse c args in
      let '(args, err) := r in
      match err with
      | Some e =>
          and_finally (report_parse_error ctx c e) (run_deferred c args extra (Some e))
      | None =>
          let* err := runsub n' ctx c args extra in
          run_deferred c args extra err
      end
  end.

(** ** Notions the properties are stated with *)

(** [Chain s c l]: [l] lists the structs from [c] along the [parent]
    pointers up to one whose [parent] is nil. *)
Inductive Chain (s : State) : nat → list nat → Prop :=
| Chain_root c C :
    cmds s !! c = Some C → Command.parent C = None → Chain s c [c]
| Chain_step c C p l :
    cmds s !! c = Some C → Command.parent C = Some p → Chain s p l → Chain s c (c :: l).

(** The value the struct at [d] has for the flag [name], when the lookup
    for the command name [cmd] looks into it. *)
Definition scope_value (s : State) (cmd name : string) (d : nat) : option Value :=
  C ← cmds s !! d;
  if String.eqb cmd "" || String.eqb cmd (Command.Name C)
  then flags_Lookup (load s (Command.Flags C)) name
  else None.

(** The struct at [x] is named [name]; it has another name. *)
Definition named (s : State) (name : string) (x : nat) : Prop :=
  ∃ X, cmds s !! x = Some X ∧ Command.Name X = name.

Definition named_other (s : State) (name : string) (x : nat) : Prop :=
  ∃ X, cmds s !! x = Some X ∧ Command.Name X ≠ name.

(** The policy set on the struct at [d]. *)
Definition policy_at (s : State) (d : nat) : option Policy :=
  C ← cmds s !! d; Command.OnError C.

(** The state with the field [Stderr] of the struct [C] at [c] set to [w]. *)
Definition with_Stderr (c : nat) (C : Command.t) (w : option Writer) (s : State) : State :=
  mkState (<[c := Command.set_Stderr w C]> (cmds s)) (opts s) (out s).

(** The state with the field [parent] of the struct [C] at [c] set to [p]. *)
Definition with_parent (c : nat) (C : Command.t) (p : option nat) (s : State) : State :=
  mkState (<[c := Command.set_parent p C]> (cmds s)) (opts s) (out s).

(** The statements of [Run] between the parse and the return, for the
    values [args] and [err] that [parse] returned; the result is the value
    of [err] at the return. *)
Definition Run_statements (n : nat) (ctx : Ctx) (c : nat) (args : list string)
    (err : option error) (extra : list Any) : M (option error) :=
  match err with
  | Some e => report_parse_error ctx c e ;; ret (Some e)
  | None => dispatch n ctx c args extra
  end.

(** The state after one more write. *)
Definition with_output (w : Writer) (text : string) (s : State) : State :=
  mkState (cmds s) (opts s) (out s ++ [(w, text)]).

End Commander.

(** ** A small instance

    Stand-ins for the collaborators, to run the model on concrete command
    trees: options are a list of fields with their values, a flag is given
    as [--name value], and the first argument that is not a flag ends the
    flags. *)
Module Demo.

Definition strip_dashes (s : string) : string :=
  strings_TrimPrefix (strings_TrimPrefix s "-") "-".

Fixpoint set_field (name v : string) (o : list (string * string)) : option (list (string * string)) :=
  match o with
  | [] => None
  | (k, x) :: rest =>
      if String.eqb k name then Some ((k, v) :: rest)
      else o' ← set_field name v rest; Some ((k, x) :: o')
  end.

Fixpoint get_field (name : string) (o : list (string * string)) : option string :=
  match o with
  | [] => None
  | (k, x) :: rest => if String.eqb k name then Some x else get_field name rest
  end.

Fixpoint parse_args (o : list (string * string)) (args : list string)
    : list (string * string) * (string + list string) :=
  match args with
  | [] => (o, inr [])
  | flag :: rest =>
      if strings_HasPrefix flag "-" then
        match rest with
        | v :: rest' =>
            match set_field (strip_dashes flag) v o with
            | Some o' => parse_args o' rest'
            | None => (o, inl ("flag provided but not defined: -" +:+ strip_dashes flag))
            end
        | [] =>
            match get_field (strip_dashes flag) o with
            | Some _ => (o, inl ("flag needs an argument: -" +:+ strip_dashes flag))
            | None => (o, inl ("flag provided but not defined: -" +:+ strip_dashes flag))
            end
        end
      else (o, inr args)
  end.

#[export] Instance flags : FlagsPkg := {|
  Options := list (string * string);
  Value := string;
  flags_Parse := λ _ _ o args,
    let r := parse_args o args in
    mkParseOutcome r.1 (match r.2 with inl text => text +:+ nl | inr _ => "" end) r.2;
  flags_Lookup := λ o name, o ≫= get_field name;
  flags_UsageLine := λ name params _, name +:+ " " +:+ params;
  flags_Help := λ name params _, "Usage: " +:+ name +:+ " " +:+ params +:+ nl;
|}.

#[export] Instance text : TextPkg := {|
  strings_TrimSpace := λ s, s;
  indent_String := λ prefix s, prefix +:+ s;
|}.

(** Action [0] returns nil, every other action fails; every user policy
    hands the error back. *)
#[export] Instance user : UserCode := {|
  Ctx := unit;
  Any := unit;
  user_Func := λ f _ _ _ _ s,
    match f with
    | O => Ret None s
    | _ => Ret (Some (errorString "fatal error")) s
    end;
  user_OnError := λ _ _ _ _ err s, Ret (Some err) s;
|}.

(** A struct with only [Name] set. *)
Definition named (name : string) : Command.t :=
  Command.mk None name "" "" "" 0 0 None None None None None None.

(** The command of [TestArgs], with [MinArgs = 1] and [MaxArgs = 2]. *)
Definition args_node : Command.t :=
  Command.mk None "test" "" "" "" 1 2 None None None None None None.

Definition args_state : State := mkState {[ 0%nat := args_node ]} ∅ [].

(** A command taking at most one argument: [MinArgs = 0], [MaxArgs = 1]. *)
Definition bounded_node : Command.t :=
  Command.mk None "cmd" "" "" "" 0 1 None None None None None None.

Definition bounded_state : State := mkState {[ 0%nat := bounded_node ]} ∅ [].

(** The context passed to the runs. *)
Definition ctx : @Ctx flags user := tt.

(** A chain of three commands as a run leaves it: [leaf] under [mid] under
    [root], each with an option [name] of its own; only [root] has [title],
    and [root] sets the policy [ContinueOnError]. *)
Definition root_node : Command.t :=
  Command.mk None "root" "" "" "" 0 0 None (Some 0%nat) None (Some [1%nat]) None
             (Some P_ContinueOnError).

Definition mid_node : Command.t :=
  Command.mk (Some 0%nat) "mid" "" "" "" 0 0 None (Some 1%nat) None (Some [2%nat]) None None.

Definition leaf_node : Command.t :=
  Command.mk (Some 1%nat) "leaf" "" "" "" 0 0 None (Some 2%nat) (Some (F_user 1)) None None None.

Definition tree_state : State :=
  mkState (list_to_map [(0%nat, root_node); (1%nat, mid_node); (2%nat, leaf_node)])
          (list_to_map [(0%nat, [("name", "of root"); ("title", "top")]);
                        (1%nat, [("name", "of mid")]);
                        (2%nat, [("name", "of leaf")])])
          [].

(** A command [main] with the sub commands [foo] and [bar]; no options,
    action or policy on [main]. *)
Definition plain_main : Command.t :=
  Command.mk None "main" "" "" "" 0 0 None None None (Some [1; 2]%nat) None None.

Definition plain_foo : Command.t :=
  Command.mk None "foo" "" "" "" 0 0 None None (Some (F_user 0)) None None None.

Definition plain_bar : Command.t :=
  Command.mk None "bar" "" "" "" 0 0 None None (Some (F_user 0)) None None None.

Definition plain_state : State :=
  mkState (list_to_map [(0%nat, plain_main); (1%nat, plain_foo); (2%nat, plain_bar)]) ∅ [].

(** [strings.Split] with an empty separator, for strings of ASCII bytes. *)
Definition explode (s : string) : list string :=
  (λ a, String a EmptyString) <$> String.list_ascii_of_string s.

(** The arguments of [TestSplit]. *)
Definition split_args : list string := ["a"; ";b"; "c;"; "d;e"; ";f;g;"; ";"; "h"].

(** A command whose options are given by [Defaults], with [n = 42]. *)
Definition defaults_node : Command.t :=
  Command.mk None "foo" "" "" "" 0 0 (Some 0%nat) None (Some (F_user 0)) None None None.

Definition defaults_state : State :=
  mkState {[ 0%nat := defaults_node ]} {[ 0%nat := [("n", "42")] ]} [].

(** A command with both [Defaults], with [n = 42], and [Flags], with
    [n = 99]. *)
Definition both_node : Command.t :=
  Command.mk None "foo" "" "" "" 0 0 (Some 0%nat) (Some 1%nat) (Some (F_user 0)) None None None.

Definition both_state : State :=
  mkState {[ 0%nat := both_node ]}
          (list_to_map [(0%nat, [("n", "42")]); (1%nat, [("n", "99")])]) [].

End Demo.

(** * Properties *)

(** ** The delimiter splitter *)

Section Split.

Implicit Types (delim : string) (args rest pre cur : list string).

Lemma cut_at_cons_delim delim rest : cut_at delim (delim :: rest) = [] :: cut_at delim rest.
Proof. simpl. by rewrite String.eqb_refl. Qed.

Lemma cut_at_not_nil delim args : cut_at delim args ≠ [].
Proof.
  destruct args as [|a rest]; simpl; [done|].
  destruct (String.eqb a delim); [done|].
  by destruct (cut_at delim rest).
Qed.

Lemma cut_at_rejoin delim args : rejoin delim (cut_at delim args) = args.
Proof.
  induction args as [|a rest IH]; simpl; [done|].
  destruct (String.eqb_spec a delim) as [->|Hne].
  - pose proof (cut_at_not_nil delim rest) as Hnn.
    simpl. destruct (cut_at delim rest) as [|g gs]; [done|].
    simpl. by rewrite <- IH.
  - pose proof (cut_at_not_nil delim rest) as Hnn.
    destruct (cut_at delim rest) as [|g gs]; [done|].
    rewrite <- IH. simpl. by destruct gs.
Qed.

Lemma cut_at_delim_free delim args : Forall (λ g, delim ∉ g) (cut_at delim args).
Proof.
  induction args as [|a rest IH]; simpl.
  - repeat constructor. apply not_elem_of_nil.
  - destruct (String.eqb_spec a delim) as [->|Hne].
    + constructor; [apply not_elem_of_nil | done].
    + destruct (cut_at delim rest) as [|g gs].
      * repeat constructor. by intros ->%list_elem_of_singleton.
      * inversion IH; subst. constructor; [|done].
        apply not_elem_of_cons. split; [congruence | done].
Qed.

Lemma cut_at_app_delim delim cur rest :
  delim ∉ cur → cut_at delim (cur ++ delim :: rest) = cur :: cut_at delim rest.
Proof.
  induction cur as [|a cur IH]; intros Hfree.
  - apply cut_at_cons_delim.
  - simpl. destruct (String.eqb_spec a delim) as [->|Hne]; [set_solver|].
    rewrite IH; [done | set_solver].
Qed.

Lemma cut_at_free delim cur : delim ∉ cur → cut_at delim cur = [cur].
Proof.
  induction cur as [|a cur IH]; intros Hfree; [done|].
  simpl. destruct (String.eqb_spec a delim) as [->|Hne]; [set_solver|].
  rewrite IH; [done | set_solver].
Qed.

Lemma nonempty_groups_cons g gs :
  nonempty_groups (g :: gs) = (if decide (g = []) then [] else [g]) ++ nonempty_groups gs.
Proof.
  unfold nonempty_groups. rewrite filter_cons.
  destruct (decide (g = [])), (decide (g ≠ [])); done.
Qed.

Lemma slice_prefix {A} (pre rest : list A) start :
  (start ≤ length pre)%nat → slice (pre ++ rest) start (length pre) = drop start pre.
Proof.
  intros Hle. unfold slice. rewrite drop_app_le by done.
  rewrite take_app_le by (rewrite length_drop; lia).
  apply take_ge. rewrite length_drop. lia.
Qed.

(** The second loop, started anywhere: the groups found so far followed by
    the groups of what is left, the current run included. *)
Lemma split_groups_cut delim rest : ∀ pre start cmds,
  (start ≤ length pre)%nat → delim ∉ drop start pre →
  (let '(start', cmds') := split_groups delim (pre ++ rest) rest (length pre) start cmds in
   if (start' <? length (pre ++ rest))%nat then cmds' ++ [drop start' (pre ++ rest)] else cmds')
  = cmds ++ nonempty_groups (cut_at delim (drop start pre ++ rest)).
Proof.
  induction rest as [|a rest IH]; intros pre start cmds Hle Hfree.
  - simpl. rewrite !app_nil_r, cut_at_free by done.
    rewrite nonempty_groups_cons. unfold nonempty_groups; simpl.
    destruct (Nat.ltb_spec start (length pre)) as [Hlt|Hge].
    + destruct (decide (drop start pre = [])) as [Hnil|Hnn]; [|done].
      apply (f_equal length) in Hnil. rewrite length_drop in Hnil. simpl in Hnil. lia.
    + rewrite drop_ge by lia. by rewrite decide_True, app_nil_r.
  - simpl. destruct (String.eqb_spec a delim) as [->|Hne].
    + specialize (IH (pre ++ [delim]) (S (length pre))
        (if (start <? length pre)%nat then cmds ++ [slice (pre ++ delim :: rest) start (length pre)] else cmds)).
      rewrite length_app in IH. simpl in IH. rewrite Nat.add_1_r in IH.
      rewrite <- (assoc_L (++)) in IH. simpl in IH. rewrite IH.
      * rewrite drop_ge by (rewrite length_app; simpl; lia). simpl.
        rewrite cut_at_app_delim by done. rewrite nonempty_groups_cons.
        rewrite slice_prefix by done.
        destruct (Nat.ltb_spec start (length pre)) as [Hlt|Hge].
        -- rewrite decide_False; [by rewrite <- (assoc_L (++))|].
           intros Hnil. apply (f_equal length) in Hnil. rewrite length_drop in Hnil.
           simpl in Hnil. lia.
        -- rewrite drop_ge by lia. by rewrite decide_True.
      * lia.
      * rewrite drop_ge by (rewrite length_app; simpl; lia). apply not_elem_of_nil.
    + specialize (IH (pre ++ [a]) start cmds).
      rewrite length_app in IH. simpl in IH. rewrite Nat.add_1_r in IH.
      rewrite <- (assoc_L (++)) in IH. simpl in IH. rewrite IH.
      * rewrite drop_app_le by done. by rewrite <- (assoc_L (++)).
      * lia.
      * rewrite drop_app_le by done.
        intros [?| ->%list_elem_of_singleton]%elem_of_app; done.
Qed.

(** No step of the second loop appends an empty group. *)
Lemma split_groups_no_empty delim rest : ∀ pre start cmds,
  [] ∉ cmds → [] ∉ (split_groups delim (pre ++ rest) rest (length pre) start cmds).2.
Proof.
  induction rest as [|a rest IH]; intros pre start cmds Hne; [done|].
  simpl. destruct (String.eqb a delim).
  - specialize (IH (pre ++ [a]) (S (length pre))
      (if (start <? length pre)%nat then cmds ++ [slice (pre ++ a :: rest) start (length pre)] else cmds)).
    rewrite length_app in IH. simpl in IH. rewrite Nat.add_1_r in IH.
    rewrite <- (assoc_L (++)) in IH. simpl in IH. apply IH.
    destruct (Nat.ltb_spec start (length pre)) as [Hlt|Hge]; [|done].
    rewrite slice_prefix by lia.
    intros [?|Hin%list_elem_of_singleton]%elem_of_app; [done|].
    symmetry in Hin. apply (f_equal length) in Hin. rewrite length_drop in Hin.
    simpl in Hin. lia.
  - specialize (IH (pre ++ [a]) start cmds).
    rewrite length_app in IH. simpl in IH. rewrite Nat.add_1_r in IH.
    rewrite <- (assoc_L (++)) in IH. simpl in IH. by apply IH.
Qed.

Lemma SplitCommand_no_empty explode args delim options :
  [] ∉ SplitCommand explode args delim options.
Proof.
  unfold SplitCommand.
  set (words := if negb (options =? StrictDelim) then _ else _).
  pose proof (split_groups_no_empty delim words [] 0 []) as Hne.
  simpl in Hne.
  destruct (split_groups delim words words 0 0 []) as [start cmds].
  simpl in Hne. specialize (Hne ltac:(apply not_elem_of_nil)).
  destruct (Nat.ltb_spec start (length words)) as [Hlt|Hge]; [|done].
  intros [?|Hin%list_elem_of_singleton]%elem_of_app; [done|].
  symmetry in Hin. apply (f_equal length) in Hin. rewrite length_drop in Hin.
  simpl in Hin. lia.
Qed.

(** C8.  Under the Strict policy [SplitCommand] returns the non-empty
    pieces of the token sequence cut at the elements equal to the delimiter,
    where the cut loses nothing (joined again with the delimiter the pieces
    give the sequence back) and no piece contains the delimiter; and under
    every value of the options no returned group is empty. *)
Theorem SplitCommand_strict_groups (explode : string → list string)
    (args : list string) (delim : string) :
  SplitCommand explode args delim StrictDelim = nonempty_groups (cut_at delim args)
  ∧ rejoin delim (cut_at delim args) = args
  ∧ Forall (λ g, delim ∉ g) (cut_at delim args)
  ∧ ∀ options, [] ∉ SplitCommand explode args delim options.
Proof.
  split; [|split; [apply cut_at_rejoin | split; [apply cut_at_delim_free |]]].
  - unfold SplitCommand. simpl.
    pose proof (split_groups_cut delim args [] 0 []) as Hcut.
    simpl in Hcut. apply Hcut; [lia | apply not_elem_of_nil].
  - intros options. apply SplitCommand_no_empty.
Qed.

End Split.

(** ** The command tree *)

Section Properties.
Context `{FP : FlagsPkg} `{TP : TextPkg} `{UC : !UserCode}.

Implicit Types (s : State) (c d : nat) (C : Command.t) (args : list string).

Lemma State_eq s1 s2 :
  cmds s1 = cmds s2 → opts s1 = opts s2 → out s1 = out s2 → s1 = s2.
Proof. destruct s1, s2; simpl; congruence. Qed.

Lemma set_Stderr_twice w1 w2 C :
  Command.set_Stderr w2 (Command.set_Stderr w1 C) = Command.set_Stderr w2 C.
Proof. done. Qed.

Lemma set_Stderr_same C : Command.set_Stderr (Command.Stderr C) C = C.
Proof. by destruct C. Qed.

Lemma with_Stderr_restore c C w s :
  cmds s !! c = Some C →
  with_Stderr c (Command.set_Stderr w C) (Command.Stderr C) (with_Stderr c C w s) = s.
Proof.
  intros HC. apply State_eq; simpl; try done.
  rewrite insert_insert_eq, set_Stderr_twice, set_Stderr_same.
  by apply insert_id.
Qed.

Lemma parameters_unset_min0 C :
  Command.Parameters C = "" → Command.MinArgs C = 0 → 0 < Command.MaxArgs C →
  parameters C = None.
Proof.
  intros HP Hmin Hmax. unfold parameters. rewrite HP, Hmin. simpl.
  destruct (Z.eqb_spec (Command.MaxArgs C) NoArgs) as [Heq|_]; [unfold NoArgs in Heq; lia|].
  destruct (Z.eqb_spec (Command.MaxArgs C) 0) as [Heq|_]; [lia|].
  destruct (Z.ltb_spec (Command.MaxArgs C) 0) as [Heq|_]; [lia|]. done.
Qed.

(** *** Steps of a computation *)

Lemma bind_Ret {A B} (m : M A) (k : A → M B) s a s' :
  m s = Ret a s' → bind m k s = k a s'.
Proof. unfold bind. by intros ->. Qed.

Lemma bind_assoc {A B D} (m : M A) (k : A → M B) (k' : B → M D) s :
  bind (bind m k) k' s = bind m (λ x, bind (k x) k') s.
Proof. unfold bind. by destruct (m s). Qed.

Lemma getCmd_Ret c C s : cmds s !! c = Some C → getCmd c s = Ret C s.
Proof. unfold getCmd, read. by intros ->. Qed.

Lemma updCmd_Ret c C f s :
  cmds s !! c = Some C →
  updCmd c f s = Ret () (mkState (<[c := f C]> (cmds s)) (opts s) (out s)).
Proof. unfold updCmd. by intros ->. Qed.

Lemma read_Ret {A} (f : State → option A) a s : f s = Some a → read f s = Ret a s.
Proof. unfold read. by intros ->. Qed.

Lemma getOpts_Ret l o s : opts s !! l = Some o → getOpts l s = Ret o s.
Proof. unfold getOpts, read. by intros ->. Qed.

Lemma defer_Ret {A} (body : M A) (d : M unit) s a s' s'' :
  body s = Ret a s' → d s' = Ret () s'' → defer body d s = Ret a s''.
Proof. unfold defer, bind, ret. by intros -> ->. Qed.

Lemma defer_Panic {A} (body : M A) (d : M unit) s msg s' s'' :
  body s = Panic msg s' → d s' = Ret () s'' → defer body d s = Panic msg s''.
Proof. unfold defer, bind, panic. by intros -> ->. Qed.

Ltac m_unfold :=
  unfold getCmd, updCmd, getOpts, setOpts, newOpts, write, defer, bind, ret, read, panic.

(** *** What [parse] does *)

Lemma parse_flags_cmds c set args s r s' :
  parse_flags c set args s = Ret r s' → cmds s' = cmds s.
Proof.
  unfold parse_flags, call_parameters. m_unfold. intros H.
  repeat (case_match; simplify_eq; simpl in *; try done).
Qed.

Lemma parse_structure c args s set s1 C r s2 :
  parse_set c s = Ret set s1 →
  cmds s1 !! c = Some C →
  parse_flags c set args (with_Stderr c C (Some W_buf) s1) = Ret r s2 →
  parse c args s =
    Ret (match r with inl early => early | inr args' => check_args c C args' end)
        (mkState (cmds s1) (opts s2) (out s2)).
Proof.
  intros Hset HC Hflags. unfold parse.
  erewrite bind_Ret by exact Hset.
  erewrite bind_Ret by (by apply getCmd_Ret).
  pose proof (parse_flags_cmds _ _ _ _ _ _ Hflags) as Hcmds. simpl in Hcmds.
  eapply defer_Ret.
  - erewrite bind_Ret by (by apply updCmd_Ret).
    erewrite bind_Ret by exact Hflags.
    destruct r as [early|args']; [reflexivity|].
    erewrite bind_Ret by (apply getCmd_Ret; rewrite Hcmds; apply lookup_insert_eq).
    reflexivity.
  - erewrite updCmd_Ret by (rewrite Hcmds; apply lookup_insert_eq).
    f_equal. apply State_eq; simpl; try done.
    rewrite Hcmds, insert_insert_eq, set_Stderr_twice, set_Stderr_same.
    by apply insert_id.
Qed.

Lemma Error_usage s c text path :
  Command_path s c = Some path →
  Error s (UsageError c (Some (errorString text))) = Some (path +:+ ": " +:+ text).
Proof. simpl. by intros ->. Qed.

(** C2.  Once the options of a node are parsed and [args'] are the tokens
    left, [parse] returns them with a verdict on their number: with
    [MaxArgs = NoArgs] any token fails with "takes no arguments"; otherwise
    fewer than [MinArgs] tokens fail with "requires at least <MinArgs>
    arguments"; otherwise more than a positive [MaxArgs] fail with "takes no
    more than <MaxArgs> arguments"; a number passing the three checks gives
    no error.  Each failure is a [UsageError] naming the node, and its text
    is the path of the node, a colon and a space, and the message. *)
Theorem parse_checks_count c args s set s1 C args' s2 :
  parse_set c s = Ret set s1 →
  cmds s1 !! c = Some C →
  parse_flags c set args (with_Stderr c C (Some W_buf) s1) = Ret (inr args') s2 →
  ∃ verdict s3,
    parse c args s = Ret (args', verdict) s3
    ∧ let count := Z.of_nat (length args') in
      let usage text := Some (UsageError c (Some (errorString text))) in
      (Command.MaxArgs C = NoArgs → count ≠ 0 → verdict = usage "takes no arguments")
      ∧ (¬ (Command.MaxArgs C = NoArgs ∧ count ≠ 0) → count < Command.MinArgs C →
         verdict = usage ("requires at least " +:+ fmt_d (Command.MinArgs C) +:+ " arguments"))
      ∧ (¬ (Command.MaxArgs C = NoArgs ∧ count ≠ 0) → Command.MinArgs C ≤ count →
         0 < Command.MaxArgs C → Command.MaxArgs C < count →
         verdict = usage ("takes no more than " +:+ fmt_d (Command.MaxArgs C) +:+ " arguments"))
      ∧ ((Command.MaxArgs C = NoArgs → count = 0) → Command.MinArgs C ≤ count →
         (0 < Command.MaxArgs C → count ≤ Command.MaxArgs C) → verdict = None)
      ∧ ∀ text path, verdict = usage text → Command_path s3 c = Some path →
          Error s3 (UsageError c (Some (errorString text))) = Some (path +:+ ": " +:+ text).
Proof.
  intros Hset HC Hflags.
  pose proof (parse_structure _ _ _ _ _ _ _ _ Hset HC Hflags) as Hparse.
  simpl in Hparse.
  exists (check_args c C args').2, (mkState (cmds s1) (opts s2) (out s2)).
  split.
  { rewrite Hparse. f_equal. unfold check_args. by repeat case_match. }
  cbv zeta. unfold check_args.
  destruct (Z.eqb_spec (Command.MaxArgs C) NoArgs) as [Hno|Hno];
    destruct (Nat.eqb_spec (length args') 0) as [Hlen|Hlen];
    destruct (Z.ltb_spec (Z.of_nat (length args')) (Command.MinArgs C)) as [Hmin|Hmin];
    destruct (Z.ltb_spec 0 (Command.MaxArgs C)) as [Hpos|Hpos];
    destruct (Z.ltb_spec (Command.MaxArgs C) (Z.of_nat (length args'))) as [Hmax|Hmax];
    simpl; (repeat split; [intros; try done; try lia; try (exfalso; tauto; lia) ..
                          | intros text path _; apply Error_usage]).
Qed.


(** *** The placeholder for the arguments *)

Lemma arg_names_not_empty (l : list nat) b :
  b ≠ "" → foldl (λ b i, b +:+ " arg" +:+ fmt_d (Z.of_nat i)) b l ≠ "".
Proof.
  revert b. induction l as [|i l IH]; intros b Hb; simpl; [done|].
  apply IH. by destruct b.
Qed.

(** Outside the case of [parameters_unset_min0] the placeholder is
    defined. *)
Lemma parameters_defined C :
  Command.Parameters C ≠ "" ∨ Command.MaxArgs C = NoArgs ∨ 0 < Command.MinArgs C
  ∨ Command.MaxArgs C = 0 ∨ Command.MaxArgs C < Command.MinArgs C →
  is_Some (parameters C).
Proof.
  intros Hcase. unfold parameters.
  destruct (String.eqb_spec (Command.Parameters C) "") as [HP|HP]; simpl; [|by eexists].
  destruct (Z.eqb_spec (Command.MaxArgs C) NoArgs) as [Hno|Hno]; [by eexists|].
  set (b := foldl _ _ _).
  destruct (Z.eqb_spec (Command.MaxArgs C) 0) as [H0|H0];
    destruct (Z.ltb_spec (Command.MaxArgs C) (Command.MinArgs C)) as [Hlt|Hlt]; simpl;
    try (by destruct b; eexists).
  assert (Hmin : 0 < Command.MinArgs C) by (destruct Hcase as [?|[?|[?|[?|?]]]]; done || lia).
  assert (Hb : b ≠ "").
  { subst b. destruct (Z.to_nat (Command.MinArgs C)) as [|k] eqn:Hk; [lia|].
    simpl. by apply arg_names_not_empty. }
  destruct b; [done | by eexists].
Qed.

(** *** Parent chains *)

Lemma Chain_head s c l : Chain s c l → ∃ l', l = c :: l'.
Proof. destruct 1; eauto. Qed.

Lemma Chain_functional s c l1 l2 : Chain s c l1 → Chain s c l2 → l1 = l2.
Proof.
  intros H1. revert l2. induction H1 as [c C HC Hp|c C p l HC Hp _ IH]; intros l2 H2.
  - destruct H2 as [c C' HC' Hp'|c C' p' l' HC' Hp' _]; [done|congruence].
  - destruct H2 as [c C' HC' Hp'|c C' p' l' HC' Hp' H2]; [congruence|].
    f_equal. apply IH. congruence.
Qed.

Lemma Chain_from_member s c l d :
  Chain s c l → d ∈ l → ∃ l', Chain s d l' ∧ (length l' ≤ length l)%nat.
Proof.
  induction 1 as [c C HC Hp|c C p l HC Hp Hl IH]; intros Hd.
  - apply list_elem_of_singleton in Hd as ->. exists [c]. split; [by econstructor|done].
  - apply elem_of_cons in Hd as [->|Hd].
    + exists (c :: l). split; [by econstructor|done].
    + destruct (IH Hd) as (l' & Hl' & Hlen). exists l'. split; [done|simpl; lia].
Qed.

Lemma Chain_NoDup s c l : Chain s c l → NoDup l.
Proof.
  induction 1 as [c C HC Hp|c C p l HC Hp Hl IH].
  - apply NoDup_singleton.
  - apply NoDup_cons. split; [|done].
    intros Hin. destruct (Chain_from_member _ _ _ _ Hl Hin) as (l' & Hl' & Hlen).
    assert (Heq : l' = c :: l) by (eapply Chain_functional; [done|by econstructor]).
    subst l'. simpl in Hlen. lia.
Qed.

Lemma Chain_allocated s c l d : Chain s c l → d ∈ l → is_Some (cmds s !! d).
Proof.
  induction 1 as [c C HC Hp|c C p l HC Hp Hl IH]; intros Hd.
  - apply list_elem_of_singleton in Hd as ->. by eexists.
  - apply elem_of_cons in Hd as [->|Hd]; [by eexists|by apply IH].
Qed.

(** A chain fits into the bound of the walks. *)
Lemma Chain_bound s c l : Chain s c l → (length l < walk_bound s)%nat.
Proof.
  intros Hl. unfold walk_bound.
  assert (Hsub : list_to_set (C:=gset nat) l ⊆ dom (cmds s)).
  { intros d Hd%elem_of_list_to_set. apply elem_of_dom. by eapply Chain_allocated. }
  apply subseteq_size in Hsub.
  rewrite size_list_to_set in Hsub by (by eapply Chain_NoDup).
  rewrite size_dom in Hsub. lia.
Qed.

(** The walks along a chain, given enough steps. *)

Lemma onError_n_first s c l n :
  Chain s c l → (length l ≤ n)%nat →
  (∀ l1 d l2 p, l = l1 ++ d :: l2 → Forall (λ x, policy_at s x = None) l1 →
     policy_at s d = Some p → onError_n n s (Some c) = Some (Some p))
  ∧ (Forall (λ x, policy_at s x = None) l → onError_n n s (Some c) = Some None).
Proof.
  intros Hl. revert n. induction Hl as [c C HC Hp|c C p l HC Hp Hl IH]; intros n Hn.
  - destruct n as [|n]; [simpl in Hn; lia|]. simpl. rewrite HC. simpl. split.
    + intros l1 d l2 q Heq Hnone Hd.
      destruct l1 as [|x l1]; [|by destruct l1].
      simpl in Heq. simplify_eq. unfold policy_at in Hd. rewrite HC in Hd. simpl in Hd. by rewrite Hd.
    + intros Hnone%Forall_cons_1. destruct Hnone as [Hc _].
      unfold policy_at in Hc. rewrite HC in Hc. simpl in Hc. rewrite Hc, Hp.
      by destruct n.
  - destruct n as [|n]; [simpl in Hn; lia|]. simpl in Hn.
    destruct (IH n ltac:(lia)) as [IH1 IH2].
    simpl. rewrite HC. simpl. split.
    + intros l1 d l2 q Heq Hnone Hd. destruct l1 as [|x l1]; simpl in Heq; simplify_eq.
      * unfold policy_at in Hd. rewrite HC in Hd. simpl in Hd. by rewrite Hd.
      * apply Forall_cons_1 in Hnone as [Hc Hnone].
        unfold policy_at in Hc. rewrite HC in Hc. simpl in Hc. rewrite Hc, Hp.
        by eapply IH1.
    + intros Hnone%Forall_cons_1. destruct Hnone as [Hc Hnone].
      unfold policy_at in Hc. rewrite HC in Hc. simpl in Hc. rewrite Hc, Hp.
      by apply IH2.
Qed.

Lemma Lookup_n_first s c l n cmd name :
  Chain s c l → (length l ≤ n)%nat →
  (∀ l1 d l2 v, l = l1 ++ d :: l2 → Forall (λ x, scope_value s cmd name x = None) l1 →
     scope_value s cmd name d = Some v → Lookup_n n s (Some c) cmd name = Some (Some v))
  ∧ (Forall (λ x, scope_value s cmd name x = None) l →
     Lookup_n n s (Some c) cmd name = Some None).
Proof.
  intros Hl. revert n. induction Hl as [c C HC Hp|c C p l HC Hp Hl IH]; intros n Hn.
  - destruct n as [|n]; [simpl in Hn; lia|]. simpl. rewrite HC. simpl. split.
    + intros l1 d l2 q Heq Hnone Hd.
      destruct l1 as [|x l1]; [|by destruct l1].
      simpl in Heq. simplify_eq. unfold scope_value in Hd. rewrite HC in Hd. simpl in Hd. by rewrite Hd.
    + intros Hnone%Forall_cons_1. destruct Hnone as [Hc _].
      unfold scope_value in Hc. rewrite HC in Hc. simpl in Hc. rewrite Hc, Hp.
      by destruct n.
  - destruct n as [|n]; [simpl in Hn; lia|]. simpl in Hn.
    destruct (IH n ltac:(lia)) as [IH1 IH2].
    simpl. rewrite HC. simpl. split.
    + intros l1 d l2 q Heq Hnone Hd. destruct l1 as [|x l1]; simpl in Heq; simplify_eq.
      * unfold scope_value in Hd. rewrite HC in Hd. simpl in Hd. by rewrite Hd.
      * apply Forall_cons_1 in Hnone as [Hc Hnone].
        unfold scope_value in Hc. rewrite HC in Hc. simpl in Hc. rewrite Hc, Hp.
        by eapply IH1.
    + intros Hnone%Forall_cons_1. destruct Hnone as [Hc Hnone].
      unfold scope_value in Hc. rewrite HC in Hc. simpl in Hc. rewrite Hc, Hp.
      by apply IH2.
Qed.

Lemma Lookup_n_enough s c l n m cmd name :
  Chain s c l → (length l ≤ n)%nat → (length l ≤ m)%nat →
  Lookup_n n s (Some c) cmd name = Lookup_n m s (Some c) cmd name.
Proof.
  intros Hl. revert n m. induction Hl as [c C HC Hp|c C p l HC Hp Hl IH]; intros n m Hn Hm.
  - destruct n as [|n], m as [|m]; simpl in *; try lia.
    rewrite HC. simpl. case_match; [done|]. rewrite Hp. by destruct n, m.
  - destruct n as [|n], m as [|m]; simpl in *; try lia.
    rewrite HC. simpl. case_match; [done|]. rewrite Hp. apply IH; lia.
Qed.

Lemma Lookup_n_skip n s c C cmd name :
  cmds s !! c = Some C → cmd ≠ "" → cmd ≠ Command.Name C →
  Lookup_n (S n) s (Some c) cmd name = Lookup_n n s (Command.parent C) cmd name.
Proof.
  intros HC Hne1 Hne2. simpl. rewrite HC. simpl.
  destruct (String.eqb_spec cmd "") as [?|_]; [done|].
  by destruct (String.eqb_spec cmd (Command.Name C)) as [?|_].
Qed.

Lemma Lookup_n_nil n s cmd name : Lookup_n n s None cmd name = Some None.
Proof. by destruct n. Qed.

(** C5.  For a node [c] with parent chain [l], [Lookup] returns the value
    of the flag in the first struct of [l], from [c] towards the root,
    that is named as asked (any struct when the name asked for is empty)
    and whose options define the flag; structs before it, on which this
    fails, do not stop the search.  When no struct of the chain qualifies
    the result is nil.  In particular a struct whose name differs from a
    non-empty name asked for is passed over whatever its own options hold,
    and [Lookup] on the nil pointer is nil. *)
Theorem Lookup_first_scope s c l cmd name :
  Chain s c l →
  (∀ l1 d l2 v, l = l1 ++ d :: l2 →
     Forall (λ x, scope_value s cmd name x = None) l1 →
     scope_value s cmd name d = Some v →
     Lookup s (Some c) cmd name = Some (Some v))
  ∧ (Forall (λ x, scope_value s cmd name x = None) l →
     Lookup s (Some c) cmd name = Some None)
  ∧ (∀ C, cmds s !! c = Some C → cmd ≠ "" → cmd ≠ Command.Name C →
     Lookup s (Some c) cmd name = Lookup s (Command.parent C) cmd name)
  ∧ Lookup s None cmd name = Some None.
Proof.
  intros Hl. pose proof (Chain_bound _ _ _ Hl) as Hbound.
  destruct (Lookup_n_first s c l (walk_bound s) cmd name Hl ltac:(lia)) as [Hfirst Hnone].
  split; [exact Hfirst|]. split; [exact Hnone|]. split; [|done].
  intros C HC Hne1 Hne2. unfold Lookup, walk_bound in *.
  rewrite (Lookup_n_skip _ _ _ _ _ _ HC) by done.
  destruct Hl as [c C' HC' Hp|c C' p l HC' Hp Hl]; simplify_eq.
  - by rewrite Hp, !Lookup_n_nil.
  - rewrite Hp. simpl in Hbound. eapply Lookup_n_enough; [done|lia..].
Qed.

(** *** The error policy *)

Lemma ContinueOnError_prints c args extra e s text w :
  Error s e = Some text → stderr s c = Some w →
  ContinueOnError c args extra e s = Ret None (with_output w (text +:+ nl) s).
Proof.
  intros He Hw. unfold ContinueOnError, printf.
  erewrite bind_Ret by (by apply read_Ret).
  rewrite bind_assoc.
  erewrite bind_Ret by (by apply (read_Ret (λ s, stderr s c))).
  reflexivity.
Qed.

(** C7.  [Run] hands the error its statements end with to the deferred
    function, whose result is the result of [Run].  For a node [c] with
    parent chain [l] that function applies the [OnError] of the first
    struct of [l], from [c] towards the root, that has one set, and returns
    what it returns; when no struct of the chain has one, the error is
    returned as it is.  When the policy found is [ContinueOnError], the text
    of the error and a line feed are written to the output of [c] and [Run]
    returns nil.  Without an error no policy is applied. *)
Theorem nearest_policy_decides n ctx c args extra s0 args' err s1 result s l :
  parse c args s0 = Ret (args', err) s1 →
  Run_statements n ctx c args' err extra s1 = Ret result s →
  Chain s c l →
  Run (S n) ctx c args extra s0 = run_deferred c args' extra result s
  ∧ (∀ e, result = Some e →
       (∀ l1 d l2 p, l = l1 ++ d :: l2 →
          Forall (λ x, policy_at s x = None) l1 → policy_at s d = Some p →
          Run (S n) ctx c args extra s0 = call_OnError p c args' extra e s)
       ∧ (Forall (λ x, policy_at s x = None) l →
          Run (S n) ctx c args extra s0 = Ret (Some e) s)
       ∧ (∀ l1 d l2 text w, l = l1 ++ d :: l2 →
          Forall (λ x, policy_at s x = None) l1 → policy_at s d = Some P_ContinueOnError →
          Error s e = Some text → stderr s c = Some w →
          Run (S n) ctx c args extra s0 = Ret None (with_output w (text +:+ nl) s)))
  ∧ (result = None → Run (S n) ctx c args extra s0 = Ret None s).
Proof.
  intros Hparse Hbody Hl.
  pose proof (Chain_bound _ _ _ Hl) as Hbound.
  destruct (onError_n_first s c l (walk_bound s) Hl ltac:(lia)) as [Hfirst Hnone].
  assert (Hrun : Run (S n) ctx c args extra s0 = run_deferred c args' extra result s).
  { simpl. erewrite bind_Ret by exact Hparse. simpl.
    unfold Run_statements in Hbody. destruct err as [e|].
    - unfold and_finally. unfold bind in Hbody.
      destruct (report_parse_error ctx c e s1) as [[] s2|?|?|]; try done.
      unfold ret in Hbody. by simplify_eq.
    - by erewrite bind_Ret by exact Hbody. }
  split; [exact Hrun|]. split.
  - intros e ->. rewrite Hrun. unfold run_deferred, onError.
    split; [|split].
    + intros l1 d l2 p Heq Hnone' Hd.
      erewrite bind_Ret by (apply read_Ret; by eapply Hfirst). done.
    + intros Hnone'.
      erewrite bind_Ret by (apply read_Ret; by eapply Hnone). done.
    + intros l1 d l2 text w Heq Hnone' Hd He Hw.
      erewrite bind_Ret by (apply read_Ret; by eapply Hfirst). simpl.
      by apply ContinueOnError_prints.
  - intros ->. rewrite Hrun. reflexivity.
Qed.

(** *** Sub commands *)

Lemma insert_sorted_Permutation x l : insert_sorted x l ≡ₚ x :: l.
Proof.
  induction l as [|y l IH]; simpl; [done|].
  destruct (String.leb x y); [done|].
  rewrite IH. apply Permutation_swap.
Qed.

Lemma insert_sorted_Sorted x l : Sorted string_le l → Sorted string_le (insert_sorted x l).
Proof.
  induction 1 as [|y l Hl IH Hhd]; simpl; [by repeat constructor|].
  destruct (String.leb x y) eqn:Hxy.
  - constructor; [by constructor|]. by constructor.
  - assert (Hyx : string_le y x).
    { destruct (String.leb_total x y) as [H|H]; [congruence|done]. }
    constructor; [done|].
    destruct Hhd as [|z l Hyz]; simpl; [by constructor|].
    destruct (String.leb x z); by constructor.
Qed.

Lemma sort_Strings_sorted l : sort_Strings l ≡ₚ l ∧ Sorted string_le (sort_Strings l).
Proof.
  unfold sort_Strings. induction l as [|x l [IHp IHs]]; simpl; [by split|].
  split; [|by apply insert_sorted_Sorted].
  by rewrite insert_sorted_Permutation, IHp.
Qed.

Lemma find_named_first s cs name :
  (∀ l1 sc l2, cs = l1 ++ sc :: l2 → Forall (named_other s name) l1 → named s name sc →
     find_named s cs name = Some (Some sc))
  ∧ (Forall (named_other s name) cs → find_named s cs name = Some None).
Proof.
  induction cs as [|x cs [IH1 IH2]]; simpl.
  - split; [|done]. intros l1 sc l2 Heq. by destruct l1.
  - split.
    + intros l1 sc l2 Heq Hother (SC & HSC & Hname).
      destruct l1 as [|y l1]; simpl in Heq; injection Heq as -> ->.
      * rewrite HSC. simpl. by rewrite Hname, String.eqb_refl.
      * apply Forall_cons_1 in Hother as [(Y & HY & Hne) Hother].
        rewrite HY. simpl. destruct (String.eqb_spec (Command.Name Y) name); [done|].
        eapply IH1; [done..|]. by exists SC.
    + intros [(X & HX & Hne) Hother]%Forall_cons_1.
      rewrite HX. simpl. destruct (String.eqb_spec (Command.Name X) name); [done|].
      by apply IH2.
Qed.

Lemma run_deferred_None c args extra s : run_deferred c args extra None s = Ret None s.
Proof. reflexivity. Qed.

(** [Run] after a successful parse is the dispatch followed by the
    deferred function. *)
Lemma Run_after_parse n ctx c args extra s0 args' s1 :
  parse c args s0 = Ret (args', None) s1 →
  Run (S n) ctx c args extra s0
  = (let* err := dispatch n ctx c args' extra in run_deferred c args' extra err) s1.
Proof. intros Hparse. simpl. by erewrite bind_Ret by exact Hparse. Qed.

Lemma dispatch_to_runsub n ctx c C args extra s :
  cmds s !! c = Some C → Command.SubCommands C ≠ None → args ≠ [] →
  dispatch n ctx c args extra s = runsub n ctx c args extra s.
Proof.
  intros HC Hsome Hargs. unfold dispatch, dispatch_with.
  erewrite bind_Ret by (by apply getCmd_Ret).
  rewrite bool_decide_eq_true_2 by done. by destruct args.
Qed.

Lemma dispatch_otherwise n ctx c C args extra s :
  cmds s !! c = Some C → Command.SubCommands C = None ∨ args = [] →
  dispatch n ctx c args extra s
  = match Command.Func C with
    | Some f => call_Func f ctx c args extra s
    | None => Ret None s
    end.
Proof.
  intros HC Hcase. unfold dispatch, dispatch_with.
  erewrite bind_Ret by (by apply getCmd_Ret).
  destruct Hcase as [Hnil| ->].
  - rewrite bool_decide_eq_false_2 by (by intros ?). simpl. by destruct (Command.Func C).
  - rewrite andb_false_r. by destruct (Command.Func C).
Qed.

Lemma runsub_missing n ctx c C extra s names :
  cmds s !! c = Some C → names_of s (Command.children C) = Some names →
  runsub n ctx c [] extra s
  = Ret (Some (UsageError c (Some (errorString
           ("sub command required {" +:+ strings_Join (sort_Strings names) ", " +:+ "}"))))) s.
Proof.
  intros HC Hnames. unfold runsub, runsub_with.
  erewrite bind_Ret; [reflexivity|].
  apply read_Ret. unfold subCommands. rewrite HC. simpl. by rewrite Hnames.
Qed.

Lemma runsub_unknown n ctx c C tok rest extra s :
  cmds s !! c = Some C → Forall (named_other s tok) (Command.children C) →
  runsub n ctx c (tok :: rest) extra s
  = Ret (Some (UsageError c (Some (errorString (tok +:+ ": unknown command"))))) s.
Proof.
  intros HC Hother. unfold runsub, runsub_with.
  erewrite bind_Ret by (by apply getCmd_Ret).
  erewrite bind_Ret by (apply read_Ret; by apply find_named_first).
  reflexivity.
Qed.

Lemma runsub_found n ctx c C tok rest l1 sc l2 SC extra s :
  cmds s !! c = Some C →
  Command.children C = l1 ++ sc :: l2 → Forall (named_other s tok) l1 →
  cmds s !! sc = Some SC → Command.Name SC = tok →
  runsub n ctx c (tok :: rest) extra s
  = Run n ctx sc rest extra (with_parent sc SC (Some c) s).
Proof.
  intros HC Hchildren Hother HSC Hname. unfold runsub, runsub_with.
  erewrite bind_Ret by (by apply getCmd_Ret).
  erewrite bind_Ret.
  2:{ apply read_Ret. rewrite Hchildren.
      eapply (proj1 (find_named_first _ _ _)); [done..|]. by exists SC. }
  simpl. by erewrite bind_Ret by (by apply updCmd_Ret).
Qed.

(** C1.  When the parse of the options and the check of the number of
    arguments succeed and leave the tokens [args'], [Run] chooses as
    follows.  With [SubCommands] not nil and a token left it enters the
    dispatch to the sub commands, whether or not [Func] is set, and the
    first sub command named by the first token runs with the tokens after
    it, its [parent] set to the node.  Otherwise, with [Func] set, [Func]
    runs with the tokens left.  Otherwise [Run] returns nil, the state being
    the one the parse left.  After the dispatch and after [Func] the
    deferred function sees the result. *)
Theorem Run_priority n ctx c args extra s0 args' s1 C :
  parse c args s0 = Ret (args', None) s1 →
  cmds s1 !! c = Some C →
  (Command.SubCommands C ≠ None → args' ≠ [] →
     Run (S n) ctx c args extra s0
     = (let* err := runsub n ctx c args' extra in run_deferred c args' extra err) s1)
  ∧ (∀ tok rest l1 sc l2 SC,
       Command.SubCommands C ≠ None → args' = tok :: rest →
       Command.children C = l1 ++ sc :: l2 → Forall (named_other s1 tok) l1 →
       cmds s1 !! sc = Some SC → Command.Name SC = tok →
       Run (S n) ctx c args extra s0
       = (let* err := Run n ctx sc rest extra in run_deferred c args' extra err)
           (with_parent sc SC (Some c) s1))
  ∧ (∀ f, Command.SubCommands C = None ∨ args' = [] → Command.Func C = Some f →
       Run (S n) ctx c args extra s0
       = (let* err := call_Func f ctx c args' extra in run_deferred c args' extra err) s1)
  ∧ (Command.SubCommands C = None ∨ args' = [] → Command.Func C = None →
       Run (S n) ctx c args extra s0 = Ret None s1).
Proof.
  intros Hparse HC. rewrite (Run_after_parse _ _ _ _ _ _ _ _ Hparse).
  split; [|split; [|split]].
  - intros Hsome Hargs. unfold bind.
    by rewrite (dispatch_to_runsub _ _ _ _ _ _ _ HC Hsome Hargs).
  - intros tok rest l1 sc l2 SC Hsome -> Hchildren Hother HSC Hname. unfold bind.
    rewrite (dispatch_to_runsub _ _ _ _ _ _ _ HC Hsome) by done.
    by rewrite (runsub_found _ _ _ _ _ _ _ _ _ _ _ _ HC Hchildren Hother HSC Hname).
  - intros f Hcase Hf. unfold bind.
    by rewrite (dispatch_otherwise _ _ _ _ _ _ _ HC Hcase), Hf.
  - intros Hcase Hf. unfold bind.
    by rewrite (dispatch_otherwise _ _ _ _ _ _ _ HC Hcase), Hf.
Qed.

(** C3, as the code has it.  The dispatch to the sub commands, [runsub],
    fails by itself in two ways, each a [UsageError] naming the node, whose
    text is the path of the node, a colon and a space, and the message:
    without a token the message is "sub command required {...}" with the
    names of the sub commands in ascending order joined by a comma and a
    space, whether or not the node has an action; with a first token that
    is the name of no sub command, the token followed by ": unknown
    command".  With a first token naming a sub command the result is that
    of the run of the first such sub command.  [RunSubcommands] enters
    [runsub] without tokens; [Run] does not, and on a node with sub
    commands, no token left and no action it returns nil. *)
Theorem runsub_failures n ctx c C extra s :
  cmds s !! c = Some C →
  (∀ names, names_of s (Command.children C) = Some names →
     ∃ sorted, sorted ≡ₚ names ∧ Sorted string_le sorted
       ∧ runsub n ctx c [] extra s
         = Ret (Some (UsageError c (Some (errorString
                  ("sub command required {" +:+ strings_Join sorted ", " +:+ "}"))))) s)
  ∧ (∀ tok rest, Forall (named_other s tok) (Command.children C) →
       runsub n ctx c (tok :: rest) extra s
       = Ret (Some (UsageError c (Some (errorString (tok +:+ ": unknown command"))))) s)
  ∧ (∀ tok rest l1 sc l2 SC,
       Command.children C = l1 ++ sc :: l2 → Forall (named_other s tok) l1 →
       cmds s !! sc = Some SC → Command.Name SC = tok →
       runsub n ctx c (tok :: rest) extra s
       = Run n ctx sc rest extra (with_parent sc SC (Some c) s))
  ∧ (∀ text path, Command_path s c = Some path →
       Error s (UsageError c (Some (errorString text))) = Some (path +:+ ": " +:+ text))
  ∧ (∀ args s0, parse c args s0 = Ret ([], None) s →
       RunSubcommands (S n) ctx c args extra s0
       = (let* err := runsub n ctx c [] extra in run_deferred c [] extra err) s
       ∧ (Command.Func C = None → Run (S n) ctx c args extra s0 = Ret None s)).
Proof.
  intros HC. split; [|split; [|split; [|split]]].
  - intros names Hnames. exists (sort_Strings names).
    destruct (sort_Strings_sorted names) as [Hperm Hsorted].
    split; [done|]. split; [done|]. by eapply runsub_missing.
  - intros tok rest Hother. by eapply runsub_unknown.
  - intros tok rest l1 sc l2 SC Hchildren Hother HSC Hname. by eapply runsub_found.
  - intros text path. apply Error_usage.
  - intros args s0 Hparse. split.
    + simpl. by erewrite bind_Ret by exact Hparse.
    + intros Hf. rewrite (Run_after_parse _ _ _ _ _ _ _ _ Hparse). unfold bind.
      by rewrite (dispatch_otherwise _ _ _ _ _ _ _ HC (or_intror eq_refl)), Hf.
Qed.

(** *** Usage errors *)

Lemma bind_inv_Ret {A B} (m : M A) (k : A → M B) s b s' :
  bind m k s = Ret b s' → ∃ a s1, m s = Ret a s1 ∧ k a s1 = Ret b s'.
Proof. unfold bind. destruct (m s) as [a s1| | |]; try done. by exists a, s1. Qed.

Lemma defer_inv_Ret {A} (body : M A) (d : M unit) s a s'' :
  defer body d s = Ret a s'' → ∃ s', body s = Ret a s' ∧ d s' = Ret () s''.
Proof.
  unfold defer, bind, ret, panic. destruct (body s) as [a' s'| | |]; try done.
  - destruct (d s') as [[] s2| | |] eqn:Hd; try done. intros [= -> ->]. by exists s'.
  - by destruct (d s0).
Qed.

Lemma parse_flags_error c set args s early s' :
  parse_flags c set args s = Ret (inl early) s' →
  ∃ text, early = (args, Some (UsageError c (Some (errorString text)))).
Proof.
  unfold parse_flags, call_parameters. m_unfold. intros H.
  repeat (case_match; simplify_eq; simpl in *; try done). by eexists.
Qed.

Lemma check_args_error c C args args' e :
  check_args c C args = (args', Some e) → ∃ cause, e = UsageError c cause.
Proof.
  unfold check_args. intros H. repeat case_match; simplify_eq; by eexists.
Qed.

(** The errors of [parse] are usage errors of the node. *)
Lemma parse_error_names_node c args s args' e s' :
  parse c args s = Ret (args', Some e) s' → ∃ cause, e = UsageError c cause.
Proof.
  unfold parse. intros H.
  apply bind_inv_Ret in H as (set & s1 & _ & H).
  apply bind_inv_Ret in H as (C & s2 & _ & H).
  apply defer_inv_Ret in H as (s3 & H & _).
  apply bind_inv_Ret in H as ([] & s4 & _ & H).
  apply bind_inv_Ret in H as (r & s5 & Hflags & H).
  destruct r as [early|rest].
  - apply parse_flags_error in Hflags as [text ->].
    unfold ret in H. simplify_eq. by eexists.
  - apply bind_inv_Ret in H as (C' & s6 & _ & H).
    unfold ret in H. injection H as H _. by eapply check_args_error.
Qed.

(** C4, as the code has it.  A usage error that [parse] returns, for a
    flag that does not parse or for a wrong number of arguments, names the
    node; [Run] and [RunSubcommands] first write its text and a line feed
    to the output of the node, then call [Help] for the node without
    arguments, and then hand the error to the deferred policy.  The usage
    errors of [runsub], for an unknown and for a missing sub command, go
    to the deferred policy from the state the parse left: nothing is
    written and [Help] is not called before it. *)
Theorem usage_errors_reported n ctx c args extra s0 args' s1 :
  (∀ e text w, parse c args s0 = Ret (args', Some e) s1 →
     Error s1 e = Some text → stderr s1 c = Some w →
     (∃ cause, e = UsageError c cause)
     ∧ Run (S n) ctx c args extra s0
       = and_finally (Help ctx c [] [] ;; ret ()) (run_deferred c args' extra (Some e))
           (with_output w (text +:+ nl) s1)
     ∧ RunSubcommands (S n) ctx c args extra s0
       = and_finally (Help ctx c [] [] ;; ret ()) (run_deferred c args' extra (Some e))
           (with_output w (text +:+ nl) s1))
  ∧ (∀ C tok rest, parse c args s0 = Ret (args', None) s1 → cmds s1 !! c = Some C →
       Command.SubCommands C ≠ None → args' = tok :: rest →
       Forall (named_other s1 tok) (Command.children C) →
       Run (S n) ctx c args extra s0
       = run_deferred c args' extra
           (Some (UsageError c (Some (errorString (tok +:+ ": unknown command"))))) s1)
  ∧ (∀ C names, parse c args s0 = Ret (args', None) s1 → cmds s1 !! c = Some C →
       args' = [] → names_of s1 (Command.children C) = Some names →
       RunSubcommands (S n) ctx c args extra s0
       = run_deferred c args' extra
           (Some (UsageError c (Some (errorString
              ("sub command required {" +:+ strings_Join (sort_Strings names) ", " +:+ "}")))))
           s1).
Proof.
  split; [|split].
  - intros e text w Hparse He Hw.
    destruct (parse_error_names_node _ _ _ _ _ _ Hparse) as [cause ->].
    split; [by eexists|].
    assert (Hreport : report_parse_error ctx c (UsageError c cause) s1
              = (Help ctx c [] [] ;; ret ()) (with_output w (text +:+ nl) s1)).
    { unfold report_parse_error, printf.
      erewrite bind_Ret by (by apply read_Ret).
      rewrite bind_assoc.
      erewrite bind_Ret by (by apply (read_Ret (λ s, stderr s c))).
      reflexivity. }
    split; simpl; erewrite bind_Ret by exact Hparse; simpl;
      unfold and_finally; by rewrite Hreport.
  - intros C tok rest Hparse HC Hsome -> Hother.
    rewrite (Run_after_parse _ _ _ _ _ _ _ _ Hparse). unfold bind at 1.
    rewrite (dispatch_to_runsub _ _ _ _ _ _ _ HC Hsome) by done.
    by rewrite (runsub_unknown _ _ _ _ _ _ _ _ HC Hother).
  - intros C names Hparse HC -> Hnames.
    simpl. erewrite bind_Ret by exact Hparse. simpl.
    erewrite bind_Ret by (exact (runsub_missing n ctx c C extra s1 names HC Hnames)).
    reflexivity.
Qed.

(** *** Options: the same store, or a fresh copy *)

Lemma stderr_own s c C w :
  cmds s !! c = Some C → Command.Stderr C = Some w → stderr s c = Some w.
Proof. intros HC Hw. unfold stderr, walk_bound. simpl. by rewrite HC; simpl; rewrite Hw. Qed.

(** The block of [parse] for a flag set, step by step. *)
Lemma parse_flags_compute c setname name l args s C w o :
  cmds s !! c = Some C → stderr s c = Some w → opts s !! l = Some o →
  parse_flags c (Some (setname, name, l)) args s =
    let po := flags_Parse setname name o args in
    let s1 := mkState (cmds s) (<[l := po_opts po]> (opts s))
                      (out s ++ [(w, po_output po)]) in
    match po_result po with
    | inr rest => Ret (inr rest) s1
    | inl text =>
        match parameters C with
        | Some params =>
            Ret (inl (args, Some (UsageError c (Some (errorString text)))))
                (with_output w (flags_Help (Command.Name C) params (load s1 (Command.Flags C))) s1)
        | None => Panic "slice bounds out of range" s1
        end
    end.
Proof.
  intros HC Hw Ho. unfold parse_flags.
  erewrite bind_Ret by (by apply (read_Ret (λ s, stderr s c))).
  erewrite bind_Ret by (by apply getOpts_Ret).
  cbv zeta. unfold setOpts, write, bind at 1 2. simpl.
  destruct (po_result (flags_Parse setname name o args)) as [text|rest]; [|done].
  erewrite bind_Ret by (by apply getCmd_Ret).
  unfold call_parameters. destruct (parameters C) as [params|]; [|done].
  reflexivity.
Qed.

Lemma parse_structure_Panic c args s set s1 C msg s2 :
  parse_set c s = Ret set s1 →
  cmds s1 !! c = Some C →
  parse_flags c set args (with_Stderr c C (Some W_buf) s1) = Panic msg s2 →
  cmds s2 = cmds (with_Stderr c C (Some W_buf) s1) →
  parse c args s = Panic msg (mkState (cmds s1) (opts s2) (out s2)).
Proof.
  intros Hset HC Hflags Hcmds. unfold parse.
  erewrite bind_Ret by exact Hset.
  erewrite bind_Ret by (by apply getCmd_Ret).
  simpl in Hcmds.
  eapply defer_Panic.
  - erewrite bind_Ret by (by apply updCmd_Ret).
    unfold bind. fold (with_Stderr c C (Some W_buf) s1). by rewrite Hflags.
  - erewrite updCmd_Ret by (rewrite Hcmds; apply lookup_insert_eq).
    f_equal. apply State_eq; simpl; try done.
    rewrite Hcmds, insert_insert_eq, set_Stderr_twice, set_Stderr_same.
    by apply insert_id.
Qed.

(** What [parse] comes to once the flag set is known. *)
Lemma parse_with_set c args s setname name l s1 C o :
  parse_set c s = Ret (Some (setname, name, l)) s1 →
  cmds s1 !! c = Some C → opts s1 !! l = Some o →
  parse c args s =
    let po := flags_Parse setname name o args in
    let s2 := mkState (cmds s1) (<[l := po_opts po]> (opts s1))
                      (out s1 ++ [(W_buf, po_output po)]) in
    match po_result po with
    | inr rest => Ret (check_args c C rest) s2
    | inl text =>
        match parameters C with
        | Some params =>
            Ret (args, Some (UsageError c (Some (errorString text))))
                (with_output W_buf
                   (flags_Help (Command.Name C) params (load s2 (Command.Flags C))) s2)
        | None => Panic "slice bounds out of range" s2
        end
    end.
Proof.
  intros Hset HC Ho.
  pose proof (parse_flags_compute c setname name l args
                (with_Stderr c C (Some W_buf) s1) (Command.set_Stderr (Some W_buf) C) W_buf o)
    as Hflags.
  assert (Hbuf : cmds (with_Stderr c C (Some W_buf) s1) !! c
            = Some (Command.set_Stderr (Some W_buf) C)) by apply lookup_insert_eq.
  specialize (Hflags Hbuf (stderr_own _ _ _ _ Hbuf eq_refl) Ho).
  cbv zeta in *. simpl in Hflags.
  destruct (po_result (flags_Parse setname name o args)) as [text|rest].
  - change (parameters (Command.set_Stderr (Some W_buf) C)) with (parameters C) in Hflags.
    destruct (parameters C) as [params|].
    + by rewrite (parse_structure _ _ _ _ _ _ _ _ Hset HC Hflags).
    + by rewrite (parse_structure_Panic _ _ _ _ _ _ _ _ Hset HC Hflags).
  - by rewrite (parse_structure _ _ _ _ _ _ _ _ Hset HC Hflags).
Qed.

(** The path of a command only depends on the names and the parents. *)
Lemma Command_path_n_frame n s s' x :
  (∀ y, (λ Y, (Command.parent Y, Command.Name Y)) <$> cmds s' !! y
        = (λ Y, (Command.parent Y, Command.Name Y)) <$> cmds s !! y) →
  Command_path_n n s' x = Command_path_n n s x.
Proof.
  intros Hframe. revert x. induction n as [|n IH]; intros x; simpl; [done|].
  specialize (Hframe x).
  destruct (cmds s' !! x) as [Y'|], (cmds s !! x) as [Y|]; simpl in *; try done.
  injection Hframe as -> ->.
  destruct (Command.parent Y) as [p|]; [|done]. by rewrite IH.
Qed.

Lemma Command_path_set_Flags s c C f o' out' x :
  cmds s !! c = Some C →
  Command_path (mkState (<[c := Command.set_Flags f C]> (cmds s)) o' out') x
  = Command_path s x.
Proof.
  intros HC. unfold Command_path, walk_bound. cbn [cmds].
  rewrite map_size_insert_Some by done.
  apply Command_path_n_frame. intros y. cbn [cmds].
  destruct (decide (c = y)) as [->|Hne].
  - by rewrite lookup_insert_eq, HC.
  - by rewrite lookup_insert_ne.
Qed.

Lemma parse_set_Flags c C l path s :
  cmds s !! c = Some C → Command.Defaults C = None → Command.Flags C = Some l →
  Command_path s c = Some path →
  parse_set c s = Ret (Some (Some (Command.Name C), path, l)) s.
Proof.
  intros HC HD HF Hpath. unfold parse_set.
  erewrite bind_Ret by (by apply getCmd_Ret). rewrite HD, HF.
  by erewrite bind_Ret by (by apply (read_Ret (λ s, Command_path s c))).
Qed.

Lemma parse_set_Defaults c C d proto path s :
  cmds s !! c = Some C → Command.Defaults C = Some d → opts s !! d = Some proto →
  Command_path s c = Some path →
  parse_set c s =
    let l := fresh (dom (opts s)) in
    Ret (Some (None, path, l))
        (mkState (<[c := Command.set_Flags (Some l) C]> (cmds s))
                 (<[l := proto]> (opts s)) (out s)).
Proof.
  intros HC HD Hproto Hpath. unfold parse_set.
  erewrite bind_Ret by (by apply getCmd_Ret). rewrite HD.
  erewrite bind_Ret by (by apply (read_Ret (λ s, Command_path s c))).
  erewrite bind_Ret by (by apply getOpts_Ret).
  unfold newOpts, bind at 1. cbv zeta.
  by erewrite bind_Ret by (by apply updCmd_Ret).
Qed.

(** [parse] on a node whose options are given by [Flags]. *)
Lemma parse_Flags c C l o path args s :
  cmds s !! c = Some C → Command.Defaults C = None → Command.Flags C = Some l →
  opts s !! l = Some o → Command_path s c = Some path →
  parse c args s =
    let po := flags_Parse (Some (Command.Name C)) path o args in
    let s1 := mkState (cmds s) (<[l := po_opts po]> (opts s))
                      (out s ++ [(W_buf, po_output po)]) in
    match po_result po with
    | inr rest => Ret (check_args c C rest) s1
    | inl text =>
        match parameters C with
        | Some params =>
            Ret (args, Some (UsageError c (Some (errorString text))))
                (with_output W_buf
                   (flags_Help (Command.Name C) params (Some (po_opts po))) s1)
        | None => Panic "slice bounds out of range" s1
        end
    end.
Proof.
  intros HC HD HF Ho Hpath.
  rewrite (parse_with_set c args s _ _ _ s C o (parse_set_Flags _ _ _ _ _ HC HD HF Hpath) HC Ho).
  cbv zeta. unfold load. rewrite HF. simpl. by rewrite lookup_insert_eq.
Qed.

(** [parse] on a node whose options are given by [Defaults]. *)
Lemma parse_Defaults c C d proto path args s :
  cmds s !! c = Some C → Command.Defaults C = Some d → opts s !! d = Some proto →
  Command_path s c = Some path →
  parse c args s =
    let l := fresh (dom (opts s)) in
    let po := flags_Parse None path proto args in
    let s1 := mkState (<[c := Command.set_Flags (Some l) C]> (cmds s))
                      (<[l := po_opts po]> (opts s))
                      (out s ++ [(W_buf, po_output po)]) in
    match po_result po with
    | inr rest => Ret (check_args c C rest) s1
    | inl text =>
        match parameters C with
        | Some params =>
            Ret (args, Some (UsageError c (Some (errorString text))))
                (with_output W_buf
                   (flags_Help (Command.Name C) params (Some (po_opts po))) s1)
        | None => Panic "slice bounds out of range" s1
        end
    end.
Proof.
  intros HC HD Hproto Hpath.
  pose proof (parse_set_Defaults _ _ _ _ _ _ HC HD Hproto Hpath) as Hset. cbv zeta in Hset.
  rewrite (parse_with_set c args s _ _ _ _ (Command.set_Flags (Some (fresh (dom (opts s)))) C)
             proto Hset) by (simpl; apply lookup_insert_eq).
  cbv zeta. simpl. unfold load. simpl. rewrite !insert_insert_eq, !lookup_insert_eq.
  reflexivity.
Qed.

Lemma parse_Flags_store c C l o path args s r s' :
  cmds s !! c = Some C → Command.Defaults C = None → Command.Flags C = Some l →
  opts s !! l = Some o → Command_path s c = Some path →
  parse c args s = Ret r s' →
  cmds s' = cmds s
  ∧ opts s' = <[l := po_opts (flags_Parse (Some (Command.Name C)) path o args)]> (opts s).
Proof.
  intros HC HD HF Ho Hpath Hparse.
  rewrite (parse_Flags _ _ _ _ _ _ _ HC HD HF Ho Hpath) in Hparse. cbv zeta in Hparse.
  repeat case_match; by simplify_eq.
Qed.

Lemma parse_Defaults_store c C d proto path args s r s' :
  cmds s !! c = Some C → Command.Defaults C = Some d → opts s !! d = Some proto →
  Command_path s c = Some path →
  parse c args s = Ret r s' →
  cmds s' = <[c := Command.set_Flags (Some (fresh (dom (opts s)))) C]> (cmds s)
  ∧ opts s' = <[fresh (dom (opts s)) := po_opts (flags_Parse None path proto args)]> (opts s).
Proof.
  intros HC HD Hproto Hpath Hparse.
  rewrite (parse_Defaults _ _ _ _ _ _ _ HC HD Hproto Hpath) in Hparse. cbv zeta in Hparse.
  repeat case_match; by simplify_eq.
Qed.

Lemma fresh_not_allocated s l (o : Options) :
  opts s !! l = Some o → fresh (dom (opts s)) ≠ l.
Proof.
  intros Ho Heq. apply (is_fresh (dom (opts s))). rewrite Heq.
  apply elem_of_dom. by eexists.
Qed.

(** C6.  On a node whose options are given by [Flags] every parse goes
    into the struct [Flags] points to, which stays the same struct: after
    a parse of [args1] it holds what the flag package made of its previous
    content, and after a further parse of [args2] that leaves the flag
    [name] alone, [name] still has the value the first parse left.  On a
    node whose options are given by [Defaults] every parse goes into a
    new struct, a copy of the prototype, which the parse does not change:
    after each parse [Flags] points to what the flag package made of the
    prototype with the arguments of that parse alone. *)
Theorem sticky_Flags_fresh_Defaults c C s path :
  cmds s !! c = Some C → Command_path s c = Some path →
  (∀ l o, Command.Defaults C = None → Command.Flags C = Some l → opts s !! l = Some o →
     ∀ args1 r1 s1, parse c args1 s = Ret r1 s1 →
       cmds s1 !! c = Some C
       ∧ opts s1 !! l = Some (po_opts (flags_Parse (Some (Command.Name C)) path o args1))
       ∧ ∀ args2 r2 s2 name, parse c args2 s1 = Ret r2 s2 →
           (∀ o1, flags_Lookup
                    (Some (po_opts (flags_Parse (Some (Command.Name C)) path o1 args2))) name
                  = flags_Lookup (Some o1) name) →
           cmds s2 !! c = Some C
           ∧ flags_Lookup (load s2 (Command.Flags C)) name
             = flags_Lookup (load s1 (Command.Flags C)) name)
  ∧ (∀ d proto, Command.Defaults C = Some d → opts s !! d = Some proto →
       ∀ args1 r1 s1, parse c args1 s = Ret r1 s1 →
         ∃ l1 C1, cmds s1 !! c = Some C1 ∧ Command.Flags C1 = Some l1
           ∧ (l1 ∉ dom (opts s))
           ∧ opts s1 !! l1 = Some (po_opts (flags_Parse None path proto args1))
           ∧ opts s1 !! d = Some proto
           ∧ ∀ args2 r2 s2, parse c args2 s1 = Ret r2 s2 →
               ∃ l2 C2, cmds s2 !! c = Some C2 ∧ Command.Flags C2 = Some l2
                 ∧ l2 ≠ l1
                 ∧ opts s2 !! l2 = Some (po_opts (flags_Parse None path proto args2))
                 ∧ opts s2 !! d = Some proto).
Proof.
  intros HC Hpath. split.
  - intros l o HD HF Ho args1 r1 s1 Hparse1.
    destruct (parse_Flags_store _ _ _ _ _ _ _ _ _ HC HD HF Ho Hpath Hparse1) as [Hc1 Ho1].
    assert (HC1 : cmds s1 !! c = Some C) by (by rewrite Hc1).
    assert (Hl1 : opts s1 !! l
              = Some (po_opts (flags_Parse (Some (Command.Name C)) path o args1)))
      by (rewrite Ho1; apply lookup_insert_eq).
    split; [done|]. split; [done|].
    intros args2 r2 s2 name Hparse2 Hleft.
    assert (Hpath1 : Command_path s1 c = Some path).
    { unfold Command_path, walk_bound in *. rewrite Hc1.
      rewrite <- Hpath. apply Command_path_n_frame. intros y. by rewrite Hc1. }
    destruct (parse_Flags_store _ _ _ _ _ _ _ _ _ HC1 HD HF Hl1 Hpath1 Hparse2) as [Hc2 Ho2].
    split; [by rewrite Hc2|].
    unfold load. rewrite HF. simpl. rewrite Ho2, lookup_insert_eq, Hl1. apply Hleft.
  - intros d proto HD Hproto args1 r1 s1 Hparse1.
    destruct (parse_Defaults_store _ _ _ _ _ _ _ _ _ HC HD Hproto Hpath Hparse1) as [Hc1 Ho1].
    set (l1 := fresh (dom (opts s))) in *.
    assert (Hne1 : l1 ≠ d) by (by eapply fresh_not_allocated).
    assert (HC1 : cmds s1 !! c = Some (Command.set_Flags (Some l1) C))
      by (rewrite Hc1; apply lookup_insert_eq).
    assert (Hproto1 : opts s1 !! d = Some proto) by (by rewrite Ho1, lookup_insert_ne).
    exists l1, (Command.set_Flags (Some l1) C).
    split; [done|]. split; [done|]. split; [apply is_fresh|].
    split; [rewrite Ho1; apply lookup_insert_eq|]. split; [done|].
    intros args2 r2 s2 Hparse2.
    assert (Hpath1 : Command_path s1 c = Some path).
    { destruct s1 as [cm1 op1 ou1]. simpl in Hc1. subst cm1.
      by rewrite Command_path_set_Flags. }
    destruct (parse_Defaults_store _ _ _ _ _ _ _ _ _ HC1 HD Hproto1 Hpath1 Hparse2)
      as [Hc2 Ho2].
    set (l2 := fresh (dom (opts s1))) in *.
    assert (Hne2 : l2 ≠ d) by (by eapply fresh_not_allocated).
    assert (Hne12 : l2 ≠ l1).
    { eapply fresh_not_allocated. rewrite Ho1. apply lookup_insert_eq. }
    exists l2, (Command.set_Flags (Some l2) (Command.set_Flags (Some l1) C)).
    split; [rewrite Hc2; apply lookup_insert_eq|]. split; [done|]. split; [done|].
    split; [rewrite Ho2; apply lookup_insert_eq|].
    by rewrite Ho2, lookup_insert_ne.
Qed.

(** C10.  On a node with both [Defaults] and [Flags] set, [parse] does
    what it does when [Flags] is nil: the struct [Flags] pointed to is not
    read.  After the parse [Flags] points to a struct that did not exist
    before, holding what the flag package made of the prototype; the
    struct [Flags] pointed to before is as it was. *)
Theorem Defaults_before_Flags c C s d l path proto old args :
  cmds s !! c = Some C → Command.Defaults C = Some d → Command.Flags C = Some l →
  Command_path s c = Some path → opts s !! d = Some proto → opts s !! l = Some old →
  parse c args s
  = parse c args (mkState (<[c := Command.set_Flags None C]> (cmds s)) (opts s) (out s))
  ∧ ∀ r s', parse c args s = Ret r s' →
      ∃ l' C', cmds s' !! c = Some C' ∧ Command.Flags C' = Some l'
        ∧ (l' ∉ dom (opts s))
        ∧ opts s' !! l' = Some (po_opts (flags_Parse None path proto args))
        ∧ opts s' !! l = Some old.
Proof.
  intros HC HD HF Hpath Hproto Hold. split.
  - rewrite (parse_Defaults _ _ _ _ _ args _ HC HD Hproto Hpath).
    set (s0 := mkState (<[c := Command.set_Flags None C]> (cmds s)) (opts s) (out s)).
    assert (HC0 : cmds s0 !! c = Some (Command.set_Flags None C)) by apply lookup_insert_eq.
    assert (Hpath0 : Command_path s0 c = Some path)
      by (unfold s0; by rewrite Command_path_set_Flags).
    rewrite (parse_Defaults _ _ _ _ _ args _ HC0 HD Hproto Hpath0).
    cbv zeta. unfold s0. simpl. by rewrite insert_insert_eq.
  - intros r s' Hparse.
    destruct (parse_Defaults_store _ _ _ _ _ _ _ _ _ HC HD Hproto Hpath Hparse) as [Hc1 Ho1].
    set (l' := fresh (dom (opts s))) in *.
    exists l', (Command.set_Flags (Some l') C).
    split; [rewrite Hc1; apply lookup_insert_eq|]. split; [done|].
    split; [apply is_fresh|]. split; [rewrite Ho1; apply lookup_insert_eq|].
    rewrite Ho1, lookup_insert_ne; [done|]. by eapply fresh_not_allocated.
Qed.
(** *** The path of a command *)

Lemma append_assoc (a b c : string) : (a +:+ b) +:+ c = a +:+ (b +:+ c).
Proof.
  induction a as [|x a IH]; [done|].
  change (String x ((a +:+ b) +:+ c) = String x (a +:+ (b +:+ c))). by rewrite IH.
Qed.

Lemma strings_Join_snoc l x sep :
  l ≠ [] → strings_Join (l ++ [x]) sep = strings_Join l sep +:+ sep +:+ x.
Proof.
  induction l as [|y l IH]; intros Hne; [done|].
  destruct l as [|z l]; [done|].
  change (strings_Join ((y :: z :: l) ++ [x]) sep)
    with (y +:+ sep +:+ strings_Join ((z :: l) ++ [x]) sep).
  rewrite IH by done.
  change (strings_Join (y :: z :: l) sep) with (y +:+ sep +:+ strings_Join (z :: l) sep).
  by rewrite !append_assoc.
Qed.

Lemma names_of_cons s d l names :
  names_of s (d :: l) = Some names →
  ∃ D names', cmds s !! d = Some D ∧ names_of s l = Some names'
              ∧ names = Command.Name D :: names'.
Proof.
  unfold names_of. simpl. intros H.
  destruct (cmds s !! d) as [D|]; simpl in H; [|done].
  destruct (mapM _ l) as [names'|]; simpl in H; [|done].
  exists D, names'. by injection H as <-.
Qed.

Lemma Command_path_n_chain s c l names n :
  Chain s c l → names_of s l = Some names → (length l ≤ n)%nat →
  names ≠ [] ∧ Command_path_n n s c = Some (strings_Join (reverse names) " ").
Proof.
  intros Hl. revert names n.
  induction Hl as [c C HC Hp|c C p l HC Hp Hl IH]; intros names n Hnames Hn.
  - apply names_of_cons in Hnames as (D & names' & HD & Hnames' & ->).
    unfold names_of in Hnames'. simpl in Hnames'. injection Hnames' as <-.
    rewrite HC in HD. injection HD as <-.
    split; [done|]. destruct n as [|n]; [simpl in Hn; lia|].
    simpl. rewrite HC. simpl. by rewrite Hp.
  - apply names_of_cons in Hnames as (D & names' & HD & Hnames' & ->).
    rewrite HC in HD. injection HD as <-.
    split; [done|]. destruct n as [|n]; [simpl in Hn; lia|]. simpl in Hn.
    destruct (IH names' n Hnames' ltac:(lia)) as [Hne Hpath].
    simpl. rewrite HC. simpl. rewrite Hp, Hpath. simpl.
    rewrite reverse_cons, strings_Join_snoc; [done|].
    intros Hnil. apply Hne. apply (f_equal reverse) in Hnil.
    by rewrite reverse_involutive in Hnil.
Qed.

(** The path of a command is the names along its parent chain, the root
    first, joined by spaces. *)
Lemma Command_path_chain s c l names :
  Chain s c l → names_of s l = Some names →
  Command_path s c = Some (strings_Join (reverse names) " ").
Proof.
  intros Hl Hnames. pose proof (Chain_bound _ _ _ Hl) as Hbound.
  by apply (Command_path_n_chain s c l names (walk_bound s) Hl Hnames ltac:(lia)).
Qed.

(** *** The depth of a run *)

Lemma bind_deeper {A B} (m : M A) (k k' : A → M B) s :
  (∀ a s1, k a s1 ≠ NoResult → k' a s1 = k a s1) →
  bind m k s ≠ NoResult → bind m k' s = bind m k s.
Proof.
  intros Hk. unfold bind. destruct (m s) as [a s1| | |]; try done. apply Hk.
Qed.

Lemma bind_deeper_l {A B} (m m' : M A) (k : A → M B) s :
  (m s ≠ NoResult → m' s = m s) →
  bind m k s ≠ NoResult → bind m' k s = bind m k s.
Proof.
  intros Hm. unfold bind. destruct (m s) as [a s1| | |] eqn:Heq; try done;
    intros _; by rewrite Hm.
Qed.

Lemma runsub_with_deeper (run run' : nat → list string → M (option error)) c args s :
  (∀ sc rest s1, run sc rest s1 ≠ NoResult → run' sc rest s1 = run sc rest s1) →
  runsub_with run c args s ≠ NoResult →
  runsub_with run' c args s = runsub_with run c args s.
Proof.
  intros Hrun. unfold runsub_with. destruct args as [|cmd rest]; [done|].
  apply bind_deeper. intros C s1. apply bind_deeper. intros [sc|] s2; [|done].
  apply bind_deeper. intros _ s3. apply Hrun.
Qed.

Lemma Run_unfold n ctx c args extra :
  Run (S n) ctx c args extra
  = (let* r := parse c args in
     let '(args, err) := r in
     match err with
     | Some e =>
         and_finally (report_parse_error ctx c e) (run_deferred c args extra (Some e))
     | None =>
         let* err := dispatch n ctx c args extra in
         run_deferred c args extra err
     end).
Proof. reflexivity. Qed.

(** A run that has a result at some depth has the same result at every
    greater depth. *)
Lemma Run_deeper n ctx c args extra s :
  Run n ctx c args extra s ≠ NoResult →
  Run (S n) ctx c args extra s = Run n ctx c args extra s.
Proof.
  revert c args s. induction n as [|n IH]; intros c args s; [done|].
  rewrite (Run_unfold (S n)), (Run_unfold n).
  apply bind_deeper. intros [args' [e|]] s1; [done|].
  apply bind_deeper_l. unfold dispatch, dispatch_with.
  apply bind_deeper. intros C s2.
  destruct (bool_decide _ && _); [|done].
  apply runsub_with_deeper. intros sc rest s3. apply IH.
Qed.

Lemma Run_depth n m ctx c args extra s :
  (n ≤ m)%nat → Run n ctx c args extra s ≠ NoResult →
  Run m ctx c args extra s = Run n ctx c args extra s.
Proof.
  induction 1 as [|m Hle IH]; intros Hn; [done|].
  rewrite <- (IH Hn). apply Run_deeper. by rewrite (IH Hn).
Qed.

End Properties.

(** * Concrete runs *)

Import Demo.


(** A command with [MinArgs = 1] and [MaxArgs = 2] run without arguments. *)
Lemma parse_checks_count_witness :
  parse_set 0 Demo.args_state = Ret None Demo.args_state
  ∧ cmds Demo.args_state !! 0%nat = Some Demo.args_node
  ∧ parse_flags 0 None [] (with_Stderr 0 Demo.args_node (Some W_buf) Demo.args_state)
    = Ret (inr []) (with_Stderr 0 Demo.args_node (Some W_buf) Demo.args_state)
  ∧ ∃ s3, parse 0 [] Demo.args_state
          = Ret ([], Some (UsageError 0 (Some (errorString "requires at least 1 arguments")))) s3.
Proof.
  assert (H1 : parse_set 0 Demo.args_state = Ret None Demo.args_state) by reflexivity.
  assert (H2 : cmds Demo.args_state !! 0%nat = Some Demo.args_node) by reflexivity.
  assert (H3 : parse_flags 0 None [] (with_Stderr 0 Demo.args_node (Some W_buf) Demo.args_state)
    = Ret (inr []) (with_Stderr 0 Demo.args_node (Some W_buf) Demo.args_state)) by reflexivity.
  split; [exact H1|]. split; [exact H2|]. split; [exact H3|].
  destruct (parse_checks_count _ _ _ _ _ _ _ _ H1 H2 H3) as (verdict & s3 & Hparse & _ & Hmin & _).
  exists s3. rewrite Hparse. f_equal. f_equal. apply Hmin.
  - intros [Hno _]. done.
  - simpl. lia.
Defined.

(** C9.  The placeholder is not defined for every [MinArgs >= 0]: with
    [Parameters] unset, [MinArgs = 0] and [MaxArgs = 1] the call of
    [parameters()] panics, and so does the run of such a command with two
    arguments, when [Help] asks for the placeholder. *)
Theorem parameters_panics_when_bounded :
  parameters Demo.bounded_node = None
  ∧ ∃ s', Run 1 Demo.ctx 0 ["a"; "b"] [] Demo.bounded_state
          = Panic "slice bounds out of range" s'.
Proof.
  split; [reflexivity|]. eexists. vm_compute. reflexivity.
Qed.

Lemma tree_chain : Chain Demo.tree_state 2 [2; 1; 0]%nat.
Proof.
  eapply (Chain_step _ 2%nat Demo.leaf_node 1%nat); [reflexivity..|].
  eapply (Chain_step _ 1%nat Demo.mid_node 0%nat); [reflexivity..|].
  by eapply (Chain_root _ 0%nat Demo.root_node).
Qed.

(** From [leaf], under [mid] under [root]: the name [root] selects the value
    of the root, the empty name the nearest value. *)
Lemma Lookup_first_scope_witness :
  Chain Demo.tree_state 2 [2; 1; 0]%nat
  ∧ Lookup Demo.tree_state (Some 2%nat) "root" "name" = Some (Some "of root")
  ∧ Lookup Demo.tree_state (Some 2%nat) "" "name" = Some (Some "of leaf")
  ∧ Lookup Demo.tree_state (Some 2%nat) "" "title" = Some (Some "top")
  ∧ Lookup Demo.tree_state (Some 2%nat) "" "unknown" = Some None.
Proof.
  pose proof tree_chain as Hl. split; [exact Hl|].
  destruct (Lookup_first_scope Demo.tree_state 2 _ "root" "name" Hl) as (Hroot & _).
  destruct (Lookup_first_scope Demo.tree_state 2 _ "" "name" Hl) as (Hnear & _).
  destruct (Lookup_first_scope Demo.tree_state 2 _ "" "title" Hl) as (Htitle & _).
  destruct (Lookup_first_scope Demo.tree_state 2 _ "" "unknown" Hl) as (_ & Hnone & _).
  split; [|split; [|split]].
  - apply (Hroot [2; 1]%nat 0%nat []); [reflexivity| |reflexivity].
    repeat constructor.
  - apply (Hnear [] 2%nat [1; 0]%nat); [reflexivity| |reflexivity].
    constructor.
  - apply (Htitle [2; 1]%nat 0%nat []); [reflexivity| |reflexivity].
    repeat constructor.
  - apply Hnone. repeat constructor.
Defined.

(** [mid] run with an unknown sub command: the policy of [root],
    [ContinueOnError], prints the error and the run returns nil. *)
Lemma nearest_policy_decides_witness :
  let s1 := with_output W_buf "" Demo.tree_state in
  let e := UsageError 1 (Some (errorString "bob: unknown command")) in
  parse 1 ["bob"] Demo.tree_state = Ret (["bob"], None) s1
  ∧ Run_statements 0 Demo.ctx 1 ["bob"] None [] s1 = Ret (Some e) s1
  ∧ Chain s1 1 [1; 0]%nat
  ∧ Run 1 Demo.ctx 1 ["bob"] [] Demo.tree_state
    = Ret None (with_output W_stderr ("root mid: bob: unknown command" +:+ nl) s1).
Proof.
  intros s1 e.
  assert (H1 : parse 1 ["bob"] Demo.tree_state = Ret (["bob"], None) s1) by reflexivity.
  assert (H2 : Run_statements 0 Demo.ctx 1 ["bob"] None [] s1 = Ret (Some e) s1) by reflexivity.
  assert (H3 : Chain s1 1 [1; 0]%nat).
  { eapply (Chain_step _ 1%nat Demo.mid_node 0%nat); [reflexivity..|].
    by eapply (Chain_root _ 0%nat Demo.root_node). }
  split; [exact H1|]. split; [exact H2|]. split; [exact H3|].
  destruct (nearest_policy_decides 0 Demo.ctx 1 ["bob"] [] _ _ _ _ _ _ _ H1 H2 H3)
    as (_ & Herr & _).
  destruct (Herr e eq_refl) as (_ & _ & Hcontinue).
  apply (Hcontinue [1%nat] 0%nat []); [reflexivity| |reflexivity..].
  repeat constructor.
Defined.

(** [root] run with the token [mid]: the sub command runs; [root] run
    without tokens: nothing happens. *)
Lemma Run_priority_witness :
  let s1 := with_output W_buf "" Demo.tree_state in
  parse 0 ["mid"] Demo.tree_state = Ret (["mid"], None) s1
  ∧ cmds s1 !! 0%nat = Some Demo.root_node
  ∧ Run 2 Demo.ctx 0 ["mid"] [] Demo.tree_state
    = (let* err := Run 1 Demo.ctx 1 [] [] in run_deferred 0 ["mid"] [] err)
        (with_parent 1 Demo.mid_node (Some 0%nat) s1).
Proof.
  intros s1.
  assert (H1 : parse 0 ["mid"] Demo.tree_state = Ret (["mid"], None) s1) by reflexivity.
  assert (H2 : cmds s1 !! 0%nat = Some Demo.root_node) by reflexivity.
  split; [exact H1|]. split; [exact H2|].
  destruct (Run_priority 1 Demo.ctx 0 ["mid"] [] _ _ _ _ H1 H2) as (_ & Hchild & _).
  apply (Hchild "mid" [] [] 1%nat []); try done.
Defined.

(** C3, as stated, fails: [main] has a sub command and no action, and run
    without tokens it returns nil, not the error "sub command required". *)
Lemma Run_without_tokens_is_silent :
  Run 1 Demo.ctx 0 [] [] Demo.plain_state = Ret None Demo.plain_state
  ∧ ¬ ∃ e s', Run 1 Demo.ctx 0 [] [] Demo.plain_state = Ret (Some e) s'.
Proof.
  assert (H : Run 1 Demo.ctx 0 [] [] Demo.plain_state = Ret None Demo.plain_state)
    by reflexivity.
  split; [exact H|]. intros (e & s' & He). rewrite H in He. discriminate.
Qed.

(** [main] with the sub commands [foo] and [bar]: the two failures of
    [runsub]. *)
Lemma runsub_failures_witness :
  cmds Demo.plain_state !! 0%nat = Some Demo.plain_main
  ∧ runsub 0 Demo.ctx 0 ["bob"] [] Demo.plain_state
    = Ret (Some (UsageError 0 (Some (errorString "bob: unknown command")))) Demo.plain_state
  ∧ Error Demo.plain_state (UsageError 0 (Some (errorString "bob: unknown command")))
    = Some "main: bob: unknown command"
  ∧ RunSubcommands 1 Demo.ctx 0 [] [] Demo.plain_state
    = Ret (Some (UsageError 0 (Some (errorString "sub command required {bar, foo}"))))
          Demo.plain_state.
Proof.
  assert (H : cmds Demo.plain_state !! 0%nat = Some Demo.plain_main) by reflexivity.
  split; [exact H|].
  destruct (runsub_failures 0 Demo.ctx 0 _ [] _ H) as (_ & Hunknown & _ & Htext & Hnone).
  split; [|split].
  - apply Hunknown. repeat constructor; [by exists Demo.plain_foo | by exists Demo.plain_bar].
  - by apply (Htext _ "main").
  - destruct (Hnone [] Demo.plain_state) as [Hsub _]; [reflexivity|].
    rewrite Hsub. reflexivity.
Defined.

(** C4, as stated, fails: [main] run with the unknown sub command [bob]
    returns the usage error, and nothing at all has been written: the
    error is not printed and no help is shown. *)
Lemma unknown_command_is_not_reported :
  ∃ s', Run 1 Demo.ctx 0 ["bob"] [] Demo.plain_state
        = Ret (Some (UsageError 0 (Some (errorString "bob: unknown command")))) s'
        ∧ out s' = [].
Proof. exists Demo.plain_state. split; reflexivity. Qed.

(** The command of [TestArgs] run without arguments: the error is written,
    then the usage, and the error is returned. *)
Lemma usage_errors_reported_witness :
  let e := UsageError 0 (Some (errorString "requires at least 1 arguments")) in
  parse 0 [] Demo.args_state = Ret ([], Some e) Demo.args_state
  ∧ Error Demo.args_state e = Some "test: requires at least 1 arguments"
  ∧ stderr Demo.args_state 0 = Some W_stderr
  ∧ ∃ s', Run 1 Demo.ctx 0 [] [] Demo.args_state = Ret (Some e) s'
          ∧ out s' = [(W_stderr, "test: requires at least 1 arguments" +:+ nl);
                      (W_stderr, "Usage: test arg0" +:+ nl);
                      (W_indent "  " W_stderr, "Usage:  " +:+ nl)].
Proof.
  intros e.
  assert (H1 : parse 0 [] Demo.args_state = Ret ([], Some e) Demo.args_state) by reflexivity.
  assert (H2 : Error Demo.args_state e = Some "test: requires at least 1 arguments")
    by reflexivity.
  assert (H3 : stderr Demo.args_state 0 = Some W_stderr) by reflexivity.
  split; [exact H1|]. split; [exact H2|]. split; [exact H3|].
  destruct (usage_errors_reported 0 Demo.ctx 0 [] [] Demo.args_state [] Demo.args_state)
    as (Hparse & _).
  destruct (Hparse e _ _ H1 H2 H3) as (_ & Hrun & _).
  rewrite Hrun. eexists. split; reflexivity.
Defined.

(** [root] parses [--name x] into its [Flags], and a parse without flags
    after it still finds [x]; [foo] parses [--n 7] into a copy of its
    [Defaults], and the parse after it starts from [n = 42] again. *)
Lemma sticky_Flags_fresh_Defaults_witness :
  (let s1 := mkState (cmds Demo.tree_state)
                     (<[0%nat := [("name", "x"); ("title", "top")]]> (opts Demo.tree_state))
                     [(W_buf, "")] in
   let s2 := with_output W_buf "" s1 in
   parse 0 ["--name"; "x"] Demo.tree_state = Ret ([], None) s1
   ∧ parse 0 [] s1 = Ret ([], None) s2
   ∧ flags_Lookup (load s2 (Some 0%nat)) "name" = Some "x")
  ∧ (∃ s1 s2 l2 C2,
       parse 0 ["--n"; "7"; "a"] Demo.defaults_state = Ret (["a"], None) s1
       ∧ parse 0 ["b"] s1 = Ret (["b"], None) s2
       ∧ cmds s2 !! 0%nat = Some C2 ∧ Command.Flags C2 = Some l2
       ∧ opts s2 !! l2 = Some [("n", "42")]).
Proof.
  split.
  - intros s1 s2.
    assert (H1 : parse 0 ["--name"; "x"] Demo.tree_state = Ret ([], None) s1) by reflexivity.
    assert (H2 : parse 0 [] s1 = Ret ([], None) s2) by reflexivity.
    split; [exact H1|]. split; [exact H2|].
    destruct (sticky_Flags_fresh_Defaults 0 Demo.root_node Demo.tree_state "root"
                eq_refl eq_refl) as [Hsticky _].
    destruct (Hsticky 0%nat _ eq_refl eq_refl eq_refl _ _ _ H1) as (_ & _ & Hnext).
    destruct (Hnext [] _ _ "name" H2) as [_ Hsame]; [reflexivity|].
    etrans; [exact Hsame|]. reflexivity.
  - destruct (parse 0 ["--n"; "7"; "a"] Demo.defaults_state) as [r1 s1| | |] eqn:H1;
      try discriminate.
    assert (Hr1 : r1 = (["a"], None)) by (vm_compute in H1; congruence).
    destruct (parse 0 ["b"] s1) as [r2 s2| | |] eqn:H2;
      try (vm_compute in H1; simplify_eq; discriminate).
    assert (Hr2 : r2 = (["b"], None)) by (vm_compute in H1; simplify_eq; vm_compute in H2; congruence).
    subst r1 r2.
    destruct (sticky_Flags_fresh_Defaults 0 Demo.defaults_node Demo.defaults_state "foo"
                eq_refl eq_refl) as [_ Hfresh].
    destruct (Hfresh 0%nat _ eq_refl eq_refl _ _ _ H1) as (l1 & C1 & _ & _ & _ & _ & _ & Hnext).
    destruct (Hnext _ _ _ H2) as (l2 & C2 & HC2 & HF2 & _ & Ho2 & _).
    exists s1, s2, l2, C2. done.
Defined.

(** [Defaults] holds [n = 42] and [Flags] pointed to [n = 99]: after a
    parse [Flags] points to a new struct with [n = 42], and the old one
    still holds [n = 99]. *)
Lemma Defaults_before_Flags_witness :
  ∃ s' l' C',
    parse 0 [] Demo.both_state = Ret ([], None) s'
    ∧ cmds s' !! 0%nat = Some C' ∧ Command.Flags C' = Some l'
    ∧ (l' ∉ dom (opts Demo.both_state))
    ∧ opts s' !! l' = Some [("n", "42")]
    ∧ opts s' !! 1%nat = Some [("n", "99")].
Proof.
  destruct (Defaults_before_Flags 0 Demo.both_node Demo.both_state 0%nat 1%nat "foo"
              [("n", "42")] [("n", "99")] [] eq_refl eq_refl eq_refl eq_refl eq_refl eq_refl)
    as [_ Hnew].
  destruct (parse 0 [] Demo.both_state) as [r s'| | |] eqn:Hparse; try discriminate.
  assert (Hr : r = ([], None)) by (vm_compute in Hparse; congruence). subst r.
  destruct (Hnew _ _ eq_refl) as (l' & C' & HC' & HF' & Hfresh & Hl' & Hold).
  by exists s', l', C'.
Defined.

(** ** The tests of the package, run on the model *)

(** [TestSplit] *)
Example TestSplit_strict :
  SplitCommand Demo.explode Demo.split_args ";" StrictDelim
  = [["a"; ";b"; "c;"; "d;e"; ";f;g;"]; ["h"]].
Proof. reflexivity. Qed.

Example TestSplit_trailing :
  SplitCommand Demo.explode Demo.split_args ";" TrailingDelim
  = [["a"; ";b"; "c"]; ["d;e"; ";f;g"]; ["h"]].
Proof. reflexivity. Qed.

Example TestSplit_preceeding :
  SplitCommand Demo.explode Demo.split_args ";" PreceedingDelim
  = [["a"]; ["b"; "c;"; "d;e"]; ["f;g;"]; ["h"]].
Proof. reflexivity. Qed.

Example TestSplit_both :
  SplitCommand Demo.explode Demo.split_args ";" (Z.lor PreceedingDelim TrailingDelim)
  = [["a"]; ["b"; "c"]; ["d;e"]; ["f;g"]; ["h"]].
Proof. reflexivity. Qed.

Example TestSplit_any :
  SplitCommand Demo.explode Demo.split_args ";" AnyDelim
  = [["a"]; ["b"]; ["c"]; ["d"]; ["e"]; ["f"]; ["g"]; ["h"]].
Proof. reflexivity. Qed.

(** [TestUsageError] *)
Example TestUsageError :
  Error Demo.args_state (UsageError 0 (Some (errorString "xyzzy"))) = Some "test: xyzzy"
  ∧ Error Demo.args_state (UsageError 0 None) = Some "test: incorrect usage".
Proof. split; reflexivity. Qed.

(** [TestArgs], second and third case. *)
Example TestArgs_too_few :
  ∃ e s', Run 1 Demo.ctx 0 [] [] Demo.args_state = Ret (Some e) s'
          ∧ Error s' e = Some "test: requires at least 1 arguments".
Proof. eexists _, _. split; reflexivity. Qed.

Example TestArgs_too_many :
  ∃ e s', Run 1 Demo.ctx 0 ["1"; "2"; "3"] [] Demo.args_state = Ret (Some e) s'
          ∧ Error s' e = Some "test: takes no more than 2 arguments".
Proof. eexists _, _. split; reflexivity. Qed.

(** The path of [leaf] under [mid] under [root]. *)
Example path_of_leaf : Command_path Demo.tree_state 2 = Some "root mid leaf".
Proof. reflexivity. Qed.
